(** * Cuttlefish: the GitHub code-search MCP server ([src/server.ts])

  A shallow embedding of the two stateful parts of [server.ts]:

  - the paging loop of the [search-code] tool handler (lines 40-98), and
  - the session-aware transport map with its Express routes
    (lines 112-162).

  JavaScript numbers that hold integers (page numbers, counts, bounds
  checked by [z.number().int()]) are modelled as [Z]; the one place where
  the code computes with a number that may leave the exact range, the
  increment of the page number, rounds as a double does.  Array lengths
  are [Z.of_nat (length _)].  The plain object [transports] is modelled as
  a finite map for its own keys together with the properties every plain
  object inherits. *)

From Stdlib Require Import Ascii String.
From stdpp Require Import gmap strings pretty list fin_maps functions.

Local Open Scope Z_scope.

(** ** The upstream search API, as the handler sees it *)

Module Upstream.

(** [item.repository?.full_name], [item.html_url] and [item.path] are the
    only fields of a result item the handler reads. *)
Record Repository := { full_name : string }.
Record Item := {
  html_url : string;
  repository : option Repository;
  path : string
}.

(** [data] of a [GET /search/code] response.  [incomplete_results] is read
    through [(data as any)], so it may be missing: [None]. *)
Record SearchCodeData := {
  total_count : Z;
  incomplete_results : option bool;
  items : list Item
}.

Record Headers := { link : option string }.

Inductive Sort := indexed.
Inductive Order := asc | desc.

(** The argument of [octokit.request("GET /search/code", ...)]. *)
Record Request := {
  req_q : string;
  req_sort : option Sort;
  req_order : option Order;
  req_per_page : Z;
  req_page : Z;
  req_accept : string
}.

(** What can be thrown inside the handler: a zod validation error from
    [inputSchema.parse], or whatever [octokit.request] rejects with. *)
Inductive Thrown :=
| ZodError
| RequestError (status : Z).

(** One call of [octokit.request]: it either rejects or resolves with
    [{ data, headers }].  The first argument is the number of calls the run
    has made before this one, so that a source may answer the same request
    differently when it is asked again. *)
Definition Octokit := Z → Request → Thrown + (SearchCodeData * Headers).

End Upstream.
Export Upstream.

(** ** The [rel="next"] test on the [Link] header (line 75)

  [headers.link?.match(/<([^>]+)>;\s*rel="next"/)].  Both quantifiers are
  followed by a character outside their class, so the match is
  deterministic: no backtracking is needed.  A header value is a string
  of one-byte characters; of these, [\s] matches 9-13, 32 and 160. *)

Module LinkHeader.

Definition is_space (c : ascii) : bool :=
  let n := nat_of_ascii c in
  ((9 <=? n)%nat && (n <=? 13)%nat) || (n =? 32)%nat || (n =? 160)%nat.

Fixpoint skip_spaces (s : string) : string :=
  match s with
  | String c r => if is_space c then skip_spaces r else s
  | EmptyString => s
  end.

(** The longest prefix without [>] and what follows it. *)
Fixpoint span_not_gt (s : string) : string * string :=
  match s with
  | String c r =>
      if Ascii.eqb c ">"%char then (EmptyString, s)
      else let '(u, rest) := span_not_gt r in (String c u, rest)
  | EmptyString => (EmptyString, EmptyString)
  end.

Definition rel_next : string :=
  "rel=" +:+ String "034"%char "next" +:+ String "034"%char EmptyString.

(** The pattern anchored at the start of [s]; the capture group. *)
Definition match_here (s : string) : option string :=
  match s with
  | String "<"%char r =>
      match span_not_gt r with
      | (EmptyString, _) => None
      | (u, String ">"%char (String ";"%char r2)) =>
          if String.prefix rel_next (skip_spaces r2) then Some u else None
      | _ => None
      end
  | _ => None
  end.

(** [String.prototype.match] without the [g] flag: leftmost match. *)
Fixpoint regex_match (s : string) : option string :=
  match match_here s with
  | Some u => Some u
  | None =>
      match s with
      | String _ r => regex_match r
      | EmptyString => None
      end
  end.

(** [headers.link?.match(...)] *)
Definition next_link (h : Headers) : option string :=
  match link h with
  | Some l => regex_match l
  | None => None
  end.

End LinkHeader.

(** ** The [search-code] tool handler (lines 22-98) *)

Module SearchCode.

(** The arguments of a tool call once [inputSchema] has checked their
    types (see [inputSchema_types] below), before it checks their bounds. *)
Record Args := {
  arg_q : string;
  arg_sort : option Sort;
  arg_order : option Order;
  arg_per_page : option Z;
  arg_page : option Z;
  arg_max_items : option Z;
  arg_max_pages : option Z;
  arg_text_match : option bool
}.

(** The [.min(lo)] / [.max(hi)] of an optional number field. *)
Definition opt_in_range (lo : Z) (hi : option Z) (v : option Z) : bool :=
  match v with
  | None => true
  | Some n =>
      (lo <=? n) && match hi with Some h => n <=? h | None => true end
  end.

(** The bounds of [inputSchema] (lines 22-31). *)
Definition inputSchema_ok (a : Args) : bool :=
  (1 <=? String.length (arg_q a))%nat
  && opt_in_range 1 (Some 25) (arg_per_page a)
  && opt_in_range 1 None (arg_page a)
  && opt_in_range 1 (Some 100) (arg_max_items a)
  && opt_in_range 1 None (arg_max_pages a).

Definition inputSchema_parse (a : Args) : Thrown + Args :=
  if inputSchema_ok a then inr a else inl ZodError.

(** The destructured locals of lines 41-46, defaults applied. *)
Record Params := {
  q : string;
  sort : option Sort;
  order : option Order;
  per_page : Z;
  page : Z;
  max_items : Z;
  max_pages : option Z;
  text_match : option bool
}.

Definition destructure (a : Args) : Params := {|
  q := arg_q a;
  sort := arg_sort a;
  order := arg_order a;
  per_page := default 100 (arg_per_page a);
  page := default 1 (arg_page a);
  max_items := default 1000 (arg_max_items a);
  max_pages := arg_max_pages a;
  text_match := arg_text_match a
|}.

(** [hdr.Accept] (lines 50-52); [text_match] is tested for truthiness. *)
Definition accept (p : Params) : string :=
  if default false (text_match p)
  then "application/vnd.github.v3.text-match+json"
  else "application/vnd.github+json".

Definition request (p : Params) (current : Z) : Request := {|
  req_q := q p;
  req_sort := sort p;
  req_order := order p;
  req_per_page := per_page p;
  req_page := current;
  req_accept := accept p
|}.

(** The mutable locals of the loop (lines 55-56). *)
Record Loop := {
  collected : list Item;
  current : Z;
  fetchedPages : Z;
  total : Z;
  incomplete : bool
}.

Definition init (p : Params) : Loop := {|
  collected := [];
  current := page p;
  fetchedPages := 0;
  total := 0;
  incomplete := false
|}.

Definition len {A} (l : list A) : Z := Z.of_nat (length l).

(** [current += 1] (line 77) on a double that holds an integer [n ≥ 1]:
    the double nearest to [n + 1], ties going to the even mantissa.  Below
    2^53 that is [n + 1]; from 2^53 to 2^54 doubles are the even integers
    and [n + 1] lies midway between [n] and [n + 2]; from 2^54 on [n] is
    nearest. *)
Definition js_succ (n : Z) : Z :=
  if n <? 2 ^ 53 then n + 1
  else if n <? 2 ^ 54 then (if n mod 4 =? 2 then n + 2 else n)
  else n.

(** [max_pages && fetchedPages >= max_pages] (line 59). *)
Definition pages_exhausted (p : Params) (st : Loop) : bool :=
  match max_pages p with
  | Some m => negb (m =? 0) && (m <=? fetchedPages st)
  | None => false
  end.

Inductive Step :=
| Continue (st : Loop)
| Break (st : Loop)
| Throw (e : Thrown).

(** One turn of [while (true)] (lines 59-77). *)
Definition iter (p : Params) (octokit : Octokit) (st : Loop) : Step :=
  if pages_exhausted p st then Break st
  else
    match octokit (fetchedPages st) (request p (current st)) with
    | inl e => Throw e
    | inr (data, headers) =>
        let st1 := {|
          collected := collected st ++ items data;
          current := current st;
          fetchedPages := fetchedPages st + 1;
          total := if fetchedPages st =? 0 then total_count data
                   else total st;
          incomplete :=
            incomplete st || default false (incomplete_results data)
        |} in
        if len (items data) =? 0 then Break st1
        else if max_items p <=? len (collected st1) then Break st1
        else if 1000 <=? len (collected st1) then
          Break {|
            collected := take 1000 (collected st1);
            current := current st1;
            fetchedPages := fetchedPages st1;
            total := total st1;
            incomplete := incomplete st1
          |}
        else
          match LinkHeader.next_link headers with
          | None => Break st1
          | Some _ =>
              Continue {|
                collected := collected st1;
                current := js_succ (current st1);
                fetchedPages := fetchedPages st1;
                total := total st1;
                incomplete := incomplete st1
              |}
          end
    end.

Inductive Exit :=
| Done (st : Loop)
| Threw (e : Thrown)
| OutOfFuel.

(** The loop itself; [fuel] bounds the number of turns. *)
Fixpoint loop (fuel : nat) (p : Params) (octokit : Octokit) (st : Loop)
  : Exit :=
  match fuel with
  | O => OutOfFuel
  | S fuel' =>
      match iter p octokit st with
      | Continue st' => loop fuel' p octokit st'
      | Break st' => Done st'
      | Throw e => Threw e
      end
  end.

(** The JSON payload [{ total, incomplete, items }] (line 88). *)
Record SearchResult := {
  res_total : Z;
  res_incomplete : bool;
  res_items : list Item
}.

(** The parts of the returned [content] array (lines 81-96).  The two
    text parts are kept structured: the summary line by the three numbers
    it interpolates, the JSON text by the object it serialises. *)
Inductive Content :=
| summary_text (total returned pages : Z)
| json_text (r : SearchResult)
| resource_link (uri name mimeType description : string).

Definition search_result (st : Loop) : SearchResult := {|
  res_total := total st;
  res_incomplete := incomplete st;
  res_items := collected st
|}.

Definition link_of (item : Item) : Content :=
  resource_link
    (html_url item)
    (match repository item with
     | Some r => full_name r
     | None => "undefined"
     end +:+ ":" +:+ path item)
    "text/html"
    "View on GitHub".

Definition content (st : Loop) : list Content :=
  summary_text (total st) (len (collected st)) (fetchedPages st)
  :: json_text (search_result st)
  :: (link_of <$> take 50 (collected st)).

Inductive Outcome :=
| Returned (c : list Content)
| Rejected (e : Thrown)
| Unfinished.

(** The handler registered for [search-code] (lines 40-98), on arguments
    of the right types. *)
Definition handler (fuel : nat) (octokit : Octokit) (args : Args)
  : Outcome :=
  match inputSchema_parse args with
  | inl e => Rejected e
  | inr a =>
      let p := destructure a in
      match loop fuel p octokit (init p) with
      | Done st => Returned (content st)
      | Threw e => Rejected e
      | OutOfFuel => Unfinished
      end
  end.

(** The [SearchResult] inside a returned [content]. *)
Definition result_of (c : list Content) : option SearchResult :=
  match c with
  | _ :: json_text r :: _ => Some r
  | _ => None
  end.

(** The page count interpolated into the summary line. *)
Definition pages_of (c : list Content) : option Z :=
  match c with
  | summary_text _ _ n :: _ => Some n
  | _ => None
  end.

(** A value as a tool call may carry it under a key of the schema:
    [Jundefined] when the key is missing, [Jinteger] a number for which
    [Number.isInteger] holds, [Jnumber] any other number (a fraction, NaN,
    an infinity), [Jcompound] an array or an object. *)
Inductive Json :=
| Jundefined
| Jnull
| Jboolean (b : bool)
| Jinteger (n : Z)
| Jnumber
| Jstring (s : string)
| Jcompound.

(** The arguments of a tool call as they arrive: what the object holds
    under the eight keys of [inputSchema]; other keys are stripped. *)
Record RawArgs := {
  raw_q : Json;
  raw_sort : Json;
  raw_order : Json;
  raw_per_page : Json;
  raw_page : Json;
  raw_max_items : Json;
  raw_max_pages : Json;
  raw_text_match : Json
}.

(** [z.string()] *)
Definition as_string (v : Json) : option string :=
  match v with
  | Jstring s => Some s
  | _ => None
  end.

(** [z.enum(["indexed"]).optional()] *)
Definition as_sort (v : Json) : option (option Sort) :=
  match v with
  | Jundefined => Some None
  | Jstring s => if String.eqb s "indexed" then Some (Some indexed) else None
  | _ => None
  end.

(** [z.enum(["asc", "desc"]).optional()] *)
Definition as_order (v : Json) : option (option Order) :=
  match v with
  | Jundefined => Some None
  | Jstring s =>
      if String.eqb s "asc" then Some (Some asc)
      else if String.eqb s "desc" then Some (Some desc)
      else None
  | _ => None
  end.

(** [z.number().int().optional()] *)
Definition as_int (v : Json) : option (option Z) :=
  match v with
  | Jundefined => Some None
  | Jinteger n => Some (Some n)
  | _ => None
  end.

(** [z.boolean().optional()] *)
Definition as_boolean (v : Json) : option (option bool) :=
  match v with
  | Jundefined => Some None
  | Jboolean b => Some (Some b)
  | _ => None
  end.

(** The types of [inputSchema] (lines 22-31). *)
Definition inputSchema_types (raw : RawArgs) : option Args :=
  q ← as_string (raw_q raw);
  sort ← as_sort (raw_sort raw);
  order ← as_order (raw_order raw);
  per_page ← as_int (raw_per_page raw);
  page ← as_int (raw_page raw);
  max_items ← as_int (raw_max_items raw);
  max_pages ← as_int (raw_max_pages raw);
  text_match ← as_boolean (raw_text_match raw);
  Some {|
    arg_q := q; arg_sort := sort; arg_order := order;
    arg_per_page := per_page; arg_page := page;
    arg_max_items := max_items; arg_max_pages := max_pages;
    arg_text_match := text_match
  |}.

(** The handler on the arguments as they arrive: [inputSchema.parse]
    (line 46) checks the types and then the bounds. *)
Definition search_code (fuel : nat) (octokit : Octokit) (raw : RawArgs)
  : Outcome :=
  match inputSchema_types raw with
  | Some args => handler fuel octokit args
  | None => Rejected ZodError
  end.

End SearchCode.

(** ** The session-aware transport map and the routes (lines 112-162)

  [newTransport] (lines 115-124) is never called and is left out. *)

Module Sessions.

Inductive Method := GET | POST | DELETE.

(** A request to [/mcp]: the method, the [mcp-session-id] header and, for a
    POST, the JSON-RPC method name of the parsed body. *)
Record HttpRequest := {
  method : Method;
  mcp_session_id : option string;
  body : option string
}.

Record HttpResponse := { status : Z; sent : string }.

(** The handshake of the protocol is the POST of an [initialize] message. *)
Definition is_handshake (req : HttpRequest) : bool :=
  match method req, body req with
  | POST, Some m => String.eqb m "initialize"
  | _, _ => false
  end.

(** The two callbacks that [ensureTransport] hands to a transport. *)
Inductive Callback :=
| onsessioninitialized (sid : string)
| onsessionclosed (sid : string).

(** [StreamableHTTPServerTransport] comes from the MCP SDK, not from this
    repository, so it is a parameter: [T] is the private state of one
    transport object, [sdk_handleRequest] is one call of
    [transport.handleRequest], given the value [randomUUID()] would yield
    if [sessionIdGenerator] is invoked; it returns the callbacks invoked
    during the call and the response written. *)
Record Sdk (T : Type) := {
  sdk_new : T;
  sdk_handleRequest :
    T → string → HttpRequest → T * list Callback * HttpResponse
}.
Arguments sdk_new {T}.
Arguments sdk_handleRequest {T}.

(** The module-level state: [transports] maps a session id to a transport
    object, transport objects live in [objects] under the references
    [0 .. allocated-1], and [connects] lists the transports passed to
    [server.connect], latest first. *)
Record Server (T : Type) := {
  transports : gmap string nat;
  objects : nat → T;
  allocated : nat;
  connects : list nat
}.
Arguments transports {T}.
Arguments objects {T}.
Arguments allocated {T}.
Arguments connects {T}.

Definition start {T} (sdk : Sdk T) : Server T := {|
  transports := ∅;
  objects := λ _, sdk_new sdk;
  allocated := 0%nat;
  connects := []
|}.

(** A session id string is truthy unless it is empty. *)
Definition truthy (s : string) : bool := negb (String.eqb s "").

(** The names under which every plain object, [transports] with them,
    answers with a property of [Object.prototype]; each of these values
    is truthy and has no [handleRequest]. *)
Definition inherited_names : list string :=
  [ "constructor"; "__proto__"; "hasOwnProperty"; "isPrototypeOf";
    "propertyIsEnumerable"; "toLocaleString"; "toString"; "valueOf";
    "__defineGetter__"; "__defineSetter__";
    "__lookupGetter__"; "__lookupSetter__" ].

Definition inherited (s : string) : bool :=
  existsb (String.eqb s) inherited_names.

(** What [transports[sid]] can yield besides [undefined]: a transport
    object stored under [sid], or an inherited property. *)
Inductive Slot :=
| transport_object (t : nat)
| inherited_property.

(** [sid && transports[sid]]: an own entry comes before an inherited
    property of the same name. *)
Definition lookup_session {T} (σ : Server T) (sid : option string)
  : option Slot :=
  match sid with
  | Some s =>
      if truthy s then
        match transports σ !! s with
        | Some t => Some (transport_object t)
        | None => if inherited s then Some inherited_property else None
        end
      else None
  | None => None
  end.

(** [onsessioninitialized] and [onsessionclosed] of the transport [t]
    (lines 134-135).  The id is the one [sessionIdGenerator] produced, a
    value of [randomUUID()]; the assignment under the one name
    [__proto__], which would set the prototype instead of an entry, does
    not arise. *)
Definition run_callback {T} (t : nat) (σ : Server T) (c : Callback)
  : Server T :=
  match c with
  | onsessioninitialized sid => {|
      transports := <[sid := t]> (transports σ);
      objects := objects σ;
      allocated := allocated σ;
      connects := connects σ
    |}
  | onsessionclosed sid => {|
      transports := delete sid (transports σ);
      objects := objects σ;
      allocated := allocated σ;
      connects := connects σ
    |}
  end.

(** [ensureTransport] (lines 128-139). *)
Definition ensureTransport {T} (sdk : Sdk T) (sessionId : option string)
  (σ : Server T) : Slot * Server T :=
  match lookup_session σ sessionId with
  | Some found => (found, σ)
  | None =>
      let transport := allocated σ in
      (transport_object transport, {|
         transports := transports σ;
         objects := <[transport := sdk_new sdk]> (objects σ);
         allocated := S (allocated σ);
         connects := transport :: connects σ
       |})
  end.

(** [await transport.handleRequest(req, res, ...)]: the transport object
    changes, and the callbacks it invokes run against the map. *)
Definition handleRequest {T} (sdk : Sdk T) (uuid : string) (t : nat)
  (req : HttpRequest) (σ : Server T) : Server T * HttpResponse :=
  let '(ts, cbs, res) := sdk_handleRequest sdk (objects σ t) uuid req in
  (foldl (run_callback t) {|
     transports := transports σ;
     objects := <[t := ts]> (objects σ);
     allocated := allocated σ;
     connects := connects σ
   |} cbs, res).

(** What the caller gets when a route handler throws: the rejected
    promise of the handler reaches the error handler of Express, which
    answers with status 500.  [sent] stands for the body, which Express
    derives from the error. *)
Definition internal_error : HttpResponse :=
  {| status := 500;
     sent := "TypeError: transport.handleRequest is not a function" |}.

(** [await transport.handleRequest(...)] on whatever was found under the
    session id: on an inherited property there is no such method, and the
    call throws a [TypeError] before anything else happens. *)
Definition call_handleRequest {T} (sdk : Sdk T) (uuid : string)
  (found : Slot) (req : HttpRequest) (σ : Server T)
  : Server T * HttpResponse :=
  match found with
  | transport_object t => handleRequest sdk uuid t req σ
  | inherited_property => (σ, internal_error)
  end.

(** The handlers of [app.post("/mcp")] and of the first [app.get("/mcp")]
    (lines 141-152). *)
Definition handleEnsured {T} (sdk : Sdk T) (uuid : string)
  (req : HttpRequest) (σ : Server T) : Server T * HttpResponse :=
  let '(transport, σ1) := ensureTransport sdk (mcp_session_id req) σ in
  call_handleRequest sdk uuid transport req σ1.

(** [handleSession] (lines 154-159). *)
Definition handleSession {T} (sdk : Sdk T) (uuid : string)
  (req : HttpRequest) (σ : Server T) : Server T * HttpResponse :=
  match lookup_session σ (mcp_session_id req) with
  | None => (σ, {| status := 400; sent := "Invalid session" |})
  | Some transport => call_handleRequest sdk uuid transport req σ
  end.

Inductive Handler := ensuring | session_only.

(** The routes on [/mcp] in registration order (lines 141, 147, 161, 162).
    Express runs the first handler whose method matches; none of these
    handlers calls [next()], so a later one for the same method is never
    reached. *)
Definition routes : list (Method * Handler) :=
  [ (POST, ensuring); (GET, ensuring);
    (GET, session_only); (DELETE, session_only) ].

Definition method_eqb (a b : Method) : bool :=
  match a, b with
  | GET, GET | POST, POST | DELETE, DELETE => true
  | _, _ => false
  end.

Definition route (m : Method) : option Handler :=
  snd <$> List.find (λ r, method_eqb (fst r) m) routes.

Definition app {T} (sdk : Sdk T) (uuid : string) (req : HttpRequest)
  (σ : Server T) : Server T * HttpResponse :=
  match route (method req) with
  | Some ensuring => handleEnsured sdk uuid req σ
  | Some session_only => handleSession sdk uuid req σ
  | None => (σ, {| status := 404; sent := "" |})
  end.

End Sessions.

(** ** A finite paged source and other fixtures *)

Module Fixtures.
Import SearchCode Sessions.

Definition quote : string := String "034"%char EmptyString.

(** A [Link] header of a page that has a successor, and one of a last
    page. *)
Definition link_with_next : string :=
  "<https://api.github.com/search/code?page=prev>; rel=" +:+ quote +:+
  "prev" +:+ quote +:+
  ", <https://api.github.com/search/code?page=next>; rel=" +:+ quote +:+
  "next" +:+ quote.

Definition link_without_next : string :=
  "<https://api.github.com/search/code?page=prev>; rel=" +:+ quote +:+
  "prev" +:+ quote +:+
  ", <https://api.github.com/search/code?page=1>; rel=" +:+ quote +:+
  "first" +:+ quote.

(** A source holding the items [all], served in pages of the size each
    request asks for; a page carries a [next] link exactly when items
    remain after it. *)
Definition paged_source (all : list Item) : Octokit := λ _ r,
  let size := Z.to_nat (req_per_page r) in
  let before := (Z.to_nat (req_page r - 1) * size)%nat in
  inr ({| total_count := len all;
          incomplete_results := Some false;
          items := take size (drop before all) |},
       {| link := if req_page r * req_per_page r <? len all
                  then Some link_with_next
                  else if 1 <? req_page r then Some link_without_next
                  else None |}).

(** The number of pages such a source serves: an empty source still
    serves its (empty) first page. *)
Definition page_count (available size : Z) : Z :=
  Z.max 1 ((available + size - 1) / size).

Definition item (n : nat) : Item := {|
  html_url := "https://github.com/o/r/blob/main/" +:+ pretty n;
  repository := Some {| full_name := "o/r" |};
  path := pretty n
|}.

Definition some_items (n : nat) : list Item := item <$> seq 0 n.

Definition just_q : Args := {|
  arg_q := "repo:o/r";
  arg_sort := None; arg_order := None;
  arg_per_page := None; arg_page := None;
  arg_max_items := None; arg_max_pages := None;
  arg_text_match := None
|}.

Definition with_bounds (size : Z) (items pages : option Z) : Args := {|
  arg_q := "repo:o/r";
  arg_sort := None; arg_order := None;
  arg_per_page := Some size; arg_page := None;
  arg_max_items := items; arg_max_pages := pages;
  arg_text_match := None
|}.

(** A source that answers page 1 and fails on every later page, and one
    whose pages disagree on the count and on the incomplete flag. *)
Definition failing_after_first : Octokit := λ _ r,
  if req_page r =? 1
  then inr ({| total_count := 9; incomplete_results := None;
               items := some_items 2 |},
            {| link := Some link_with_next |})
  else inl (RequestError 403).

Definition disagreeing : Octokit := λ _ r,
  inr ({| total_count := 10 * req_page r;
          incomplete_results :=
            if req_page r =? 1 then Some true
            else if req_page r =? 2 then None else Some false;
          items := some_items 2 |},
       {| link := if req_page r <? 3 then Some link_with_next
                  else None |}).

(** A source that answers by the number of the call alone: two items each
    time, a [next] link on the first call only, and the flag raised on the
    second call only. *)
Definition changing_its_mind : Octokit := λ k _,
  inr ({| total_count := 4;
          incomplete_results := Some (k =? 1);
          items := some_items 2 |},
       {| link := if k <? 1 then Some link_with_next else None |}).

(** A call for the page 2^53, from which on the page number no longer
    advances. *)
Definition from_page_2_53 : Args := {|
  arg_q := "repo:o/r";
  arg_sort := None; arg_order := None;
  arg_per_page := Some 2; arg_page := Some (2 ^ 53);
  arg_max_items := None; arg_max_pages := None;
  arg_text_match := None
|}.

(** A source that only reports the page size it was asked for, and one
    that differs from it on requests for 100 items a page. *)
Definition deaf_to_100 : Octokit := λ _ r,
  inl (RequestError (if req_per_page r =? 100 then 0 else req_per_page r)).

(** A source that only reports the page size it was asked for. *)
Definition echo_page_size : Octokit := λ _ r,
  inl (RequestError (req_per_page r)).

(** A stand-in for the SDK transport: it accepts the handshake once,
    answers 400 to anything else before it, and closes on DELETE. *)
Definition toy_sdk : Sdk (option string) := {|
  sdk_new := None;
  sdk_handleRequest := λ ts uuid req,
    match ts with
    | None =>
        if is_handshake req
        then (Some uuid, [onsessioninitialized uuid],
              {| status := 200; sent := "initialized" |})
        else (None, [],
              {| status := 400;
                 sent := "Bad Request: Server not initialized" |})
    | Some sid =>
        match method req with
        | DELETE => (Some sid, [onsessionclosed sid],
                     {| status := 200; sent := "" |})
        | _ => (Some sid, [], {| status := 200; sent := "ok" |})
        end
    end
|}.

End Fixtures.

(** ** Vocabulary of the statements *)

Module Spec.
Import SearchCode Sessions Fixtures.

(** What [inputSchema] and the defaults guarantee about the locals. *)
Record valid (p : Params) : Prop := {
  valid_max_items : 1 ≤ max_items p ≤ 1000;
  valid_max_pages : ∀ m, max_pages p = Some m → 1 ≤ m;
  valid_per_page : 1 ≤ per_page p ≤ 100;
  valid_page : 1 ≤ page p
}.

(** The locals after lines 65-68 of a turn that received [data]. *)
Definition push (data : SearchCodeData) (st : Loop) : Loop := {|
  collected := collected st ++ items data;
  current := current st;
  fetchedPages := fetchedPages st + 1;
  total := if fetchedPages st =? 0 then total_count data else total st;
  incomplete := incomplete st || default false (incomplete_results data)
|}.

(** ... and after line 77. *)
Definition advance (st : Loop) : Loop := {|
  collected := collected st;
  current := js_succ (current st);
  fetchedPages := fetchedPages st;
  total := total st;
  incomplete := incomplete st
|}.

(** [n] turns of the loop that all reach line 77. *)
Inductive turns (p : Params) (octokit : Octokit)
  : nat → Loop → Loop → Prop :=
| turns_none st : turns p octokit 0 st st
| turns_more n st st' st'' :
    iter p octokit st = Continue st' →
    turns p octokit n st' st'' →
    turns p octokit (S n) st st''.

(** The page number of the call number [k] of a run: [page], incremented
    [k] times as line 77 does it. *)
Definition nth_page (p : Params) (k : nat) : Z :=
  Nat.iter k js_succ (page p).

(** [ds] are the payloads the source serves to the successive calls of a
    run. *)
Definition serves (p : Params) (octokit : Octokit)
  (ds : list SearchCodeData) : Prop :=
  ∀ (k : nat) d, ds !! k = Some d →
    ∃ h, octokit (Z.of_nat k) (request p (nth_page p k)) = inr (d, h).

Definition reports_incomplete (d : SearchCodeData) : bool :=
  bool_decide (incomplete_results d = Some true).

(** The locals a run holds after fetching exactly the pages [ds]. *)
Record folds (ds : list SearchCodeData) (st : Loop) : Prop := {
  folds_collected : collected st = concat (items <$> ds);
  folds_fetched : fetchedPages st = len ds;
  folds_total : total st = from_option total_count 0 (head ds);
  folds_incomplete : incomplete st = existsb reports_incomplete ds
}.

Definition returned_items (o : Outcome) : option (list Item) :=
  match o with
  | Returned c => res_items <$> result_of c
  | _ => None
  end.

Definition returned_pages (o : Outcome) : option Z :=
  match o with
  | Returned c => pages_of c
  | _ => None
  end.

(** The smallest of the bounds that apply to a run over a source of
    [available] items in pages of [size]. *)
Definition bound (available size max_items : Z) (max_pages : option Z)
  : Z :=
  let b := Z.min (Z.min available max_items) 1000 in
  match max_pages with
  | Some m => Z.min b (m * size)
  | None => b
  end.

Definition fetch_bound (available size : Z) (max_pages : option Z) : Z :=
  match max_pages with
  | Some m => Z.min (page_count available size) m
  | None => page_count available size
  end.

(** The aggregation property as the specification words it: at most
    [min(P, max_pages)] fetches and exactly
    [min(total_available, max_items, 1000)] items. *)
Definition aggregation_as_specified (args : Args) (all : list Item)
  : Prop :=
  let p := destructure args in
  ∃ fuel c r n,
    handler fuel (paged_source all) args = Returned c
    ∧ result_of c = Some r ∧ pages_of c = Some n
    ∧ n ≤ fetch_bound (len all) (per_page p) (max_pages p)
    ∧ len (res_items r)
      = Z.min (Z.min (len all) (max_items p)) 1000.

(** Two sources that answer alike wherever the request passes a test. *)
Definition agree_where (test : Request → Prop) (octokit octokit' : Octokit)
  : Prop :=
  ∀ k r, test r → octokit k r = octokit' k r.

(** The page-size property as the specification words it: be the default
    clamped or be it rejected, the upstream never sees a page size outside
    1..25, so what it would answer to such a request has no bearing on the
    outcome. *)
Definition page_size_as_specified (args : Args) : Prop :=
  ∀ octokit octokit' fuel,
    agree_where (λ r, 1 ≤ req_per_page r ≤ 25) octokit octokit' →
    handler fuel octokit args = handler fuel octokit' args.

(** The upstream is asked for [n] items a page, and for nothing else: the
    first request reports [n] when sent to [echo_page_size], and what the
    upstream would answer to requests for another page size has no bearing
    on the outcome. *)
Definition sends_page_size (args : Args) (n : Z) : Prop :=
  (∀ fuel, handler (S fuel) echo_page_size args = Rejected (RequestError n))
  ∧ ∀ octokit octokit' fuel,
      agree_where (λ r, req_per_page r = n) octokit octokit' →
      handler fuel octokit args = handler fuel octokit' args.

Definition invalid_session : HttpResponse :=
  {| status := 400; sent := "Invalid session" |}.


End Spec.

(** ** Vocabulary of the further properties *)

Module Behaviour.
Import SearchCode Sessions Fixtures Spec.

(** What [inputSchema] (lines 22-31) asks of the value under each key. *)
Definition fits_int (lo : Z) (hi : option Z) (v : Json) : Prop :=
  v = Jundefined
  ∨ ∃ n, v = Jinteger n
         ∧ lo ≤ n ∧ match hi with Some h => n ≤ h | None => True end.

Record accepted_by_schema (raw : RawArgs) : Prop := {
  fits_q : ∃ s, raw_q raw = Jstring s ∧ s ≠ "";
  fits_sort : raw_sort raw = Jundefined ∨ raw_sort raw = Jstring "indexed";
  fits_order :
    raw_order raw = Jundefined
    ∨ raw_order raw = Jstring "asc" ∨ raw_order raw = Jstring "desc";
  fits_per_page : fits_int 1 (Some 25) (raw_per_page raw);
  fits_page : fits_int 1 None (raw_page raw);
  fits_max_items : fits_int 1 (Some 100) (raw_max_items raw);
  fits_max_pages : fits_int 1 None (raw_max_pages raw);
  fits_text_match :
    raw_text_match raw = Jundefined ∨ ∃ b, raw_text_match raw = Jboolean b
}.

(** A source that answers every request. *)
Definition never_fails (octokit : Octokit) : Prop :=
  ∀ k r, ∃ d h, octokit k r = inr (d, h).

(** A source whose pages hold no more items than the request asks for. *)
Definition honours_page_size (octokit : Octokit) : Prop :=
  ∀ k r d h, 1 ≤ req_per_page r →
    octokit k r = inr (d, h) → len (items d) ≤ req_per_page r.

(** Two sources that answer alike to the first [max_items] calls a run
    can make: the call number [k] for the page [nth_page p k]. *)
Definition agree_on_window (p : Params) (octokit octokit' : Octokit)
  : Prop :=
  ∀ k : nat, Z.of_nat k < max_items p →
    octokit (Z.of_nat k) (request p (nth_page p k))
    = octokit' (Z.of_nat k) (request p (nth_page p k)).

(** The answer to the call number [k] of a run lets the loop go on as far
    as lines 70 and 76 are concerned: it holds items and carries a [next]
    link. *)
Definition goes_on (p : Params) (octokit : Octokit) (k : nat) : Prop :=
  ∃ d h, octokit (Z.of_nat k) (request p (nth_page p k)) = inr (d, h)
         ∧ items d ≠ [] ∧ is_Some (LinkHeader.next_link h).

(** Strings all of whose characters pass a test. *)
Fixpoint all_chars (f : ascii → bool) (s : string) : bool :=
  match s with
  | EmptyString => true
  | String c r => f c && all_chars f r
  end.

Definition not_gt (c : ascii) : bool := negb (Ascii.eqb c ">"%char).

(** One entry of a [Link] header that names the next page: the target [u]
    in angle brackets, a semicolon, the blanks [ws], and [rel="next"]. *)
Definition next_entry (u ws : string) : string :=
  "<" +:+ u +:+ ">;" +:+ ws +:+ LinkHeader.rel_next.

Definition well_formed (u ws : string) : Prop :=
  u ≠ "" ∧ all_chars not_gt u = true
  ∧ all_chars LinkHeader.is_space ws = true.

(** The references the state holds all name transports that were
    created, and the server has been connected to each of them once, in the
    order of their creation. *)
Definition sound_refs {T} (σ : Server T) : Prop :=
  (∀ sid t, transports σ !! sid = Some t → (t < allocated σ)%nat)
  ∧ connects σ = reverse (seq 0 (allocated σ)).

(** The state after serving a sequence of requests, each with the value
    [randomUUID()] holds ready for it. *)
Definition serve {T} (sdk : Sdk T) (reqs : list (string * HttpRequest))
  (σ : Server T) : Server T :=
  foldl (λ σ ur, (app sdk ur.1 ur.2 σ).1) σ reqs.

(** The session id a callback names. *)
Definition callback_sid (c : Callback) : string :=
  match c with
  | onsessioninitialized sid => sid
  | onsessionclosed sid => sid
  end.

(** A source that answers page 1 like [failing_after_first] and answers
    the later pages too. *)
Definition recovering : Octokit := λ k r,
  if req_page r =? 1 then failing_after_first k r else disagreeing k r.

End Behaviour.

(** ** Properties of the paging loop *)

Module SearchCodeFacts.
Import SearchCode Fixtures Spec.

Lemma parse_accepts a a' :
  inputSchema_parse a = inr a' → a' = a ∧ inputSchema_ok a = true.
Proof.
  unfold inputSchema_parse. destruct (inputSchema_ok a); [|done].
  intros [= <-]. done.
Qed.

Lemma opt_in_range_bounds lo hi v d :
  opt_in_range lo (Some hi) v = true → lo ≤ d ≤ hi →
  lo ≤ default d v ≤ hi.
Proof. destruct v as [n|]; simpl; [lia | done]. Qed.

(** Whatever [inputSchema.parse] lets through yields valid locals. *)
Lemma parse_valid a a' :
  inputSchema_parse a = inr a' → valid (destructure a').
Proof.
  intros [-> Hok]%parse_accepts. unfold inputSchema_ok in Hok.
  rewrite !andb_true_iff in Hok.
  destruct Hok as ((((_ & Hpp) & Hpg) & Hmi) & Hmp).
  split; simpl.
  - destruct (arg_max_items a); simpl in *; lia.
  - intros m Hm. rewrite Hm in Hmp. simpl in Hmp. lia.
  - destruct (arg_per_page a); simpl in *; lia.
  - destruct (arg_page a); simpl in *; lia.
Qed.

Lemma pages_exhausted_spec p st :
  pages_exhausted p st = true →
  ∃ m, max_pages p = Some m ∧ m ≠ 0 ∧ m ≤ fetchedPages st.
Proof.
  unfold pages_exhausted. destruct (max_pages p) as [m|]; [|done].
  intros [? ?]%andb_prop. exists m. split; [done|].
  destruct (Z.eqb_spec m 0); [done|]. lia.
Qed.

(** The cases of one turn.  With valid locals the turn never shortens
    [collected]: the branch of line 72 is not taken, because
    [max_items ≤ 1000] makes line 71 break first. *)
Lemma iter_cases p octokit st :
  valid p →
  match iter p octokit st with
  | Break st' =>
      (pages_exhausted p st = true ∧ st' = st)
      ∨ (∃ d h, pages_exhausted p st = false
           ∧ octokit (fetchedPages st) (request p (current st)) = inr (d, h)
           ∧ st' = push d st
           ∧ (items d = []
              ∨ max_items p ≤ len (collected st')
              ∨ LinkHeader.next_link h = None))
  | Continue st' =>
      ∃ d h, pages_exhausted p st = false
        ∧ octokit (fetchedPages st) (request p (current st)) = inr (d, h)
        ∧ st' = advance (push d st)
        ∧ items d ≠ []
        ∧ len (collected st') < max_items p
        ∧ is_Some (LinkHeader.next_link h)
  | Throw e =>
      pages_exhausted p st = false
      ∧ octokit (fetchedPages st) (request p (current st)) = inl e
  end.
Proof.
  intros [Hmax _ _ _]. unfold iter.
  destruct (pages_exhausted p st) eqn:Hex; [by left|].
  destruct (octokit (fetchedPages st) (request p (current st)))
    as [e|[d h]] eqn:Hreq; [done|].
  cbn [collected].
  destruct (Z.eqb_spec (len (items d)) 0) as [Hlen|Hlen].
  { right. exists d, h. repeat split; try done. left.
    unfold len in Hlen. destruct (items d); [done | simpl in Hlen; lia]. }
  destruct (Z.leb_spec (max_items p) (len (collected st ++ items d))).
  { right. exists d, h. repeat split; try done. right; left. done. }
  destruct (Z.leb_spec 1000 (len (collected st ++ items d))); [lia|].
  destruct (LinkHeader.next_link h) eqn:Hnext.
  - exists d, h. repeat split; try done.
    intros Hnil. rewrite Hnil in Hlen. done.
  - right. exists d, h. repeat split; try done. by right; right.
Qed.

Lemma len_app {A} (l k : list A) : len (l ++ k) = len l + len k.
Proof. unfold len. rewrite length_app. lia. Qed.

Lemma len_nonneg {A} (l : list A) : 0 ≤ len l.
Proof. unfold len. lia. Qed.

Lemma len_pos {A} (l : list A) : l ≠ [] → 1 ≤ len l.
Proof. destruct l; [done|]. unfold len. simpl. lia. Qed.

(** More fuel does not change a finished run. *)
Lemma loop_fuel_mono p octokit fuel fuel' st :
  (fuel ≤ fuel')%nat →
  loop fuel p octokit st ≠ OutOfFuel →
  loop fuel' p octokit st = loop fuel p octokit st.
Proof.
  revert fuel' st. induction fuel as [|fuel IH]; intros fuel' st Hle Hfin.
  - done.
  - destruct fuel' as [|fuel']; [lia|]. simpl in *.
    destruct (iter p octokit st); try done.
    apply IH; [lia | done].
Qed.

(** The loop ends within [max_items] turns, whatever the source does:
    every turn that goes on has added an item and is still below
    [max_items]. *)
Lemma loop_finishes p octokit fuel st :
  valid p →
  (1 ≤ fuel)%nat →
  max_items p - len (collected st) ≤ Z.of_nat fuel →
  loop fuel p octokit st ≠ OutOfFuel.
Proof.
  intros Hv. revert st. induction fuel as [|fuel IH]; intros st H1 Hfuel.
  - lia.
  - simpl. pose proof (iter_cases p octokit st Hv) as Hc.
    destruct (iter p octokit st) as [st'| |]; try done.
    destruct Hc as (d & h & _ & _ & -> & Hne & Hlt & _).
    cbn [advance push collected] in *. rewrite len_app in Hlt.
    apply len_pos in Hne.
    apply IH; cbn [advance push collected]; rewrite ?len_app; lia.
Qed.

Lemma handler_finishes octokit args fuel :
  (1000 ≤ fuel)%nat → handler fuel octokit args ≠ Unfinished.
Proof.
  intros Hfuel. unfold handler.
  destruct (inputSchema_parse args) as [e|a] eqn:Hparse; [done|].
  pose proof (parse_valid _ _ Hparse) as Hv.
  pose proof (loop_finishes (destructure a) octokit fuel
                (init (destructure a)) Hv) as Hfin.
  destruct (loop fuel (destructure a) octokit (init (destructure a)));
    try done.
  exfalso. apply Hfin; [lia | | done].
  destruct Hv as [? _ _ _]. unfold init, len. cbn [collected length]. lia.
Qed.

(** *** A run folds the pages it fetched *)

Lemma reports_incomplete_default d :
  default false (incomplete_results d) = reports_incomplete d.
Proof.
  unfold reports_incomplete.
  destruct (incomplete_results d) as [[|]|]; done.
Qed.

Lemma existsb_lookup {A} (f : A → bool) (l : list A) :
  existsb f l = true ↔ ∃ (k : nat) x, l !! k = Some x ∧ f x = true.
Proof.
  induction l as [|x l IH]; simpl.
  - split; [done | by intros (k & y & ? & _)].
  - rewrite orb_true_iff, IH. split.
    + intros [Hx | (k & y & Hk & Hy)].
      * by exists 0%nat, x.
      * by exists (S k), y.
    + intros ([|k] & y & Hk & Hy); simplify_eq/=; eauto.
Qed.

Lemma folds_init p : folds [] (init p).
Proof. by split. Qed.

Lemma folds_push ds st d : folds ds st → folds (ds ++ [d]) (push d st).
Proof.
  intros [Hc Hf Ht Hi]. split; cbn [push collected fetchedPages total
                                     incomplete].
  - rewrite fmap_app, concat_app, Hc. simpl. by rewrite app_nil_r.
  - rewrite Hf, len_app. unfold len. simpl. lia.
  - rewrite Hf, Ht. destruct ds; done.
  - rewrite Hi, existsb_app, reports_incomplete_default. simpl.
    by rewrite orb_false_r.
Qed.

Lemma folds_advance ds st : folds ds st → folds ds (advance st).
Proof. by intros [? ? ? ?]. Qed.

Lemma serves_snoc p octokit ds d h :
  serves p octokit ds →
  octokit (len ds) (request p (nth_page p (length ds))) = inr (d, h) →
  serves p octokit (ds ++ [d]).
Proof.
  intros Hs Hreq k d' Hk.
  destruct (decide (k < length ds)%nat) as [Hlt|Hge].
  - rewrite lookup_app_l in Hk by done. by apply Hs.
  - rewrite lookup_app_r in Hk by lia.
    destruct (k - length ds)%nat as [|j] eqn:Hj; [|done].
    simplify_eq/=. exists h. rewrite <- Hreq. unfold len.
    replace k with (length ds) by lia. done.
Qed.

(** From a loop head that has folded the pages [ds], the loop either
    returns after folding a longer, non-empty run of pages, or throws the
    error of the first page that failed. *)
Lemma loop_folds p octokit fuel ds st :
  valid p →
  serves p octokit ds → folds ds st →
  current st = nth_page p (length ds) →
  match loop fuel p octokit st with
  | Done st' =>
      ∃ ds', ds' ≠ [] ∧ serves p octokit ds' ∧ folds ds' st'
  | Threw e =>
      ∃ ds', serves p octokit ds'
             ∧ octokit (len ds') (request p (nth_page p (length ds')))
               = inl e
  | OutOfFuel => True
  end.
Proof.
  intros Hv. revert ds st.
  induction fuel as [|fuel IH]; intros ds st Hs Hf Hcur; [done|].
  simpl. pose proof (iter_cases p octokit st Hv) as Hc.
  rewrite (folds_fetched _ _ Hf), Hcur in Hc.
  destruct (iter p octokit st) as [st'|st'|e].
  - destruct Hc as (d & h & _ & Hreq & -> & _).
    apply (IH (ds ++ [d])).
    + by eapply serves_snoc.
    + by apply folds_advance, folds_push.
    + cbn [advance push current]. rewrite Hcur, length_app.
      cbn [length]. by rewrite Nat.add_1_r.
  - destruct Hc as [[Hex ->] | (d & h & _ & Hreq & -> & _)].
    + exists ds. split; [|done].
      apply pages_exhausted_spec in Hex as (m & Hm & _ & Hle).
      pose proof (valid_max_pages p Hv m Hm).
      rewrite (folds_fetched _ _ Hf) in Hle.
      intros ->. unfold len in Hle. simpl in Hle. lia.
    + exists (ds ++ [d]). split_and!.
      * by destruct ds.
      * by eapply serves_snoc.
      * by apply folds_push.
  - destruct Hc as [_ Hreq]. by exists ds.
Qed.

(** What a returned [content] was built from. *)
Lemma handler_returned fuel octokit args c :
  handler fuel octokit args = Returned c →
  ∃ ds st, inputSchema_parse args = inr args
    ∧ ds ≠ [] ∧ serves (destructure args) octokit ds
    ∧ folds ds st ∧ c = content st.
Proof.
  unfold handler.
  destruct (inputSchema_parse args) as [e|a] eqn:Hparse; [done|].
  pose proof (parse_valid _ _ Hparse) as Hv.
  apply parse_accepts in Hparse as Hacc. destruct Hacc as [-> _].
  pose proof (loop_folds (destructure args) octokit fuel []
                (init (destructure args)) Hv) as Hl.
  destruct (loop fuel _ octokit _) as [st| |]; try done.
  intros [= <-].
  destruct Hl as (ds & Hne & Hs & Hf).
  - by intros k d Hk.
  - apply folds_init.
  - done.
  - by exists ds, st.
Qed.

Lemma turns_loop p octokit n st st' fuel :
  turns p octokit n st st' →
  loop (n + fuel) p octokit st = loop fuel p octokit st'.
Proof.
  induction 1 as [|n st st' st'' Hiter _ IH]; [done|].
  simpl. by rewrite Hiter.
Qed.

(** A turn never resets [incomplete], and changes [total] only when it
    fetches the first page. *)
Lemma iter_frame p octokit st st' :
  iter p octokit st = Continue st' ∨ iter p octokit st = Break st' →
  (incomplete st = true → incomplete st' = true)
  ∧ (fetchedPages st ≠ 0 → total st' = total st).
Proof.
  unfold iter.
  destruct (pages_exhausted p st).
  { intros [?|[= <-]]; done. }
  destruct (octokit _ _) as [e|[d h]]; [by intros [?|?]|].
  destruct (Z.eqb_spec (fetchedPages st) 0) as [H0|H0];
    repeat case_match; intros [?|?]; simplify_eq; cbn;
    split; intros; try done; by apply orb_true_intro; left.
Qed.

(** A page that does not carry the flag leaves [incomplete] as it was. *)
Lemma iter_flag_missing p octokit st st' d h :
  octokit (fetchedPages st) (request p (current st)) = inr (d, h) →
  incomplete_results d = None →
  iter p octokit st = Continue st' ∨ iter p octokit st = Break st' →
  incomplete st' = incomplete st.
Proof.
  intros Hreq Hnone. unfold iter. rewrite Hreq, Hnone.
  repeat case_match; intros [?|?]; simplify_eq; cbn;
    by rewrite ?orb_false_r.
Qed.

(** The flag of a returned result, in terms of the calls made. *)
Lemma returned_incomplete_iff fuel octokit args c r n :
  handler fuel octokit args = Returned c →
  result_of c = Some r → pages_of c = Some n →
  res_incomplete r = true
  ↔ ∃ (k : nat) d h,
      Z.of_nat k < n
      ∧ octokit (Z.of_nat k)
          (request (destructure args) (nth_page (destructure args) k))
        = inr (d, h)
      ∧ incomplete_results d = Some true.
Proof.
  intros (ds & st & _ & _ & Hs & Hf & ->)%handler_returned
    [= <-] [= <-].
  cbn [search_result res_incomplete].
  rewrite (folds_incomplete _ _ Hf), (folds_fetched _ _ Hf).
  rewrite existsb_lookup. unfold len. split.
  - intros (k & d & Hk & Hd).
    destruct (Hs k d Hk) as [h Hreq]. exists k, d, h. split_and!.
    + apply lookup_lt_Some in Hk. lia.
    + done.
    + unfold reports_incomplete in Hd. by apply bool_decide_eq_true in Hd.
  - intros (k & d & h & Hk & Hreq & Hd).
    destruct (lookup_lt_is_Some_2 ds k) as [d' Hd']; [lia|].
    destruct (Hs k d' Hd') as [h' Hreq'].
    rewrite Hreq in Hreq'. injection Hreq' as <- _.
    exists k, d. split; [done|]. unfold reports_incomplete.
    by apply bool_decide_eq_true.
Qed.

(** Below 2^53 the page number advances by one with every call. *)
Lemma js_succ_exact n : n < 2 ^ 53 → js_succ n = n + 1.
Proof. unfold js_succ. intros H. by destruct (Z.ltb_spec n (2 ^ 53)); [|lia]. Qed.

Lemma nth_page_S p k : nth_page p (S k) = js_succ (nth_page p k).
Proof. done. Qed.

Lemma nth_page_exact p (k : nat) :
  page p + Z.of_nat k ≤ 2 ^ 53 → nth_page p k = page p + Z.of_nat k.
Proof.
  induction k as [|k IH]; intros Hk.
  - unfold nth_page. simpl. lia.
  - rewrite nth_page_S, IH by lia. rewrite js_succ_exact by lia. lia.
Qed.

End SearchCodeFacts.

(** ** The loop over a finite paged source *)

Module PagedSourceFacts.
Import SearchCode Fixtures Spec SearchCodeFacts.

Lemma next_link_paged (more later : bool) :
  is_Some (LinkHeader.next_link
             {| link := if more then Some link_with_next
                        else if later then Some link_without_next
                        else None |})
  ↔ more = true.
Proof.
  destruct more, later; vm_compute; split; intros H;
    try done; try (by eexists); by destruct H.
Qed.

Lemma paged_response p all i (k : nat) :
  let size := Z.to_nat (per_page p) in
  paged_source all i (request p (1 + Z.of_nat k))
  = inr ({| total_count := len all;
            incomplete_results := Some false;
            items := take size (drop (k * size) all) |},
         {| link :=
              if (1 + Z.of_nat k) * per_page p <? len all
              then Some link_with_next
              else if 1 <? 1 + Z.of_nat k then Some link_without_next
              else None |}).
Proof.
  unfold paged_source, request. cbn [req_per_page req_page].
  replace (Z.to_nat (1 + Z.of_nat k - 1)) with k by lia. done.
Qed.

Lemma len_take_pages {A} (all : list A) (n : nat) (size : Z) :
  0 ≤ size →
  len (take (n * Z.to_nat size) all) = Z.min (Z.of_nat n * size) (len all).
Proof. intros. unfold len. rewrite length_take. lia. Qed.

Lemma page_count_lower available size (n : Z) :
  1 ≤ size → 1 ≤ n → (n = 1 ∨ (n - 1) * size < available) →
  n ≤ page_count available size.
Proof.
  intros Hs Hn [->|Hlt]; unfold page_count; [lia|].
  apply Z.max_le_iff. right.
  apply Z.div_le_lower_bound; lia.
Qed.

(** Where a run over [paged_source all] stops, from a loop head that has
    read [k] full pages. *)
Lemma paged_loop p all fuel (k : nat) st :
  valid p → page p = 1 →
  let size := per_page p in
  collected st = take (k * Z.to_nat size) all →
  current st = 1 + Z.of_nat k →
  fetchedPages st = Z.of_nat k →
  (k = 0%nat
   ∨ (Z.of_nat k * size < len all ∧ Z.of_nat k * size < max_items p)) →
  (∀ m, max_pages p = Some m → Z.of_nat k ≤ m) →
  (1 ≤ fuel)%nat →
  max_items p - Z.of_nat k * size ≤ Z.of_nat fuel →
  ∃ (n : nat) st',
    loop fuel p (paged_source all) st = Done st'
    ∧ fetchedPages st' = Z.of_nat n
    ∧ collected st' = take (n * Z.to_nat size) all
    ∧ total st' = (if decide (k = 0%nat) then len all else total st)
    ∧ (1 ≤ n)%nat
    ∧ (∀ m, max_pages p = Some m → Z.of_nat n ≤ m)
    ∧ (n = 1%nat ∨ (Z.of_nat n - 1) * size < len all)
    ∧ (Z.of_nat n - 1) * size < max_items p
    ∧ (max_pages p = Some (Z.of_nat n)
       ∨ len all ≤ Z.of_nat n * size
       ∨ max_items p ≤ len (take (n * Z.to_nat size) all)).
Proof.
  intros Hv Hpage size. revert k st.
  assert (1 ≤ size ≤ 100) as Hsize by apply Hv.
  assert (1 ≤ max_items p ≤ 1000) as Hmax by apply Hv.
  induction fuel as [|fuel IH];
    intros k st Hcol Hcur Hfet Hk Hpages Hfuel1 Hfuel; [lia|].
  simpl. pose proof (iter_cases p (paged_source all) st Hv) as Hc.
  rewrite Hcur, paged_response in Hc. fold size in Hc.
  destruct (iter p (paged_source all) st) as [st'|st'|e].
  - destruct Hc as (d & h & Hex & [= <- <-] & -> & Hne & Hlt & Hnext).
    apply next_link_paged, Z.ltb_lt in Hnext.
    cbn [advance push collected items] in Hlt.
    rewrite Hcol, take_take_drop in Hlt.
    replace (k * Z.to_nat size + Z.to_nat size)%nat
      with (S k * Z.to_nat size)%nat in Hlt by lia.
    rewrite len_take_pages in Hlt by lia.
    destruct (IH (S k) (advance (push
                {| total_count := len all;
                   incomplete_results := Some false;
                   items := take (Z.to_nat size)
                              (drop (k * Z.to_nat size) all) |} st)))
      as (n & st' & Hrun & Hn & Hcol' & Htot & H1 & Hm & Hfirst & Hprev
          & Hstop).
    + cbn [advance push collected items]. rewrite Hcol, take_take_drop.
      f_equal. lia.
    + cbn [advance push current]. rewrite Hcur.
      rewrite js_succ_exact; [lia|].
      destruct Hk as [->|[_ Hk2]]; [lia | nia].
    + cbn [advance push fetchedPages]. lia.
    + right. lia.
    + intros m Hm. unfold pages_exhausted in Hex. rewrite Hm in Hex.
      pose proof (valid_max_pages p Hv m Hm).
      destruct (Z.eqb_spec m 0); [lia|].
      destruct (Z.leb_spec m (fetchedPages st)); [done|]. lia.
    + lia.
    + lia.
    + exists n, st'. split_and!; try done.
      rewrite Htot. cbn [advance push total]. rewrite Hfet.
      destruct (decide (k = 0%nat)) as [->|]; [done|].
      destruct (Z.eqb_spec (Z.of_nat k) 0); [lia | done].
  - destruct Hc as [[Hex ->] | (d & h & Hex & [= <- <-] & -> & Hstop)].
    + apply pages_exhausted_spec in Hex as (m & Hm & _ & Hle).
      pose proof (valid_max_pages p Hv m Hm).
      pose proof (Hpages m Hm).
      exists k, st. destruct Hk as [->|[Hk1 Hk2]]; [lia|].
      split_and!; try done; try lia.
      * destruct (decide (k = 0%nat)); [lia | done].
      * left. rewrite Hm. f_equal. lia.
    + exists (S k), (push
                {| total_count := len all;
                   incomplete_results := Some false;
                   items := take (Z.to_nat size)
                              (drop (k * Z.to_nat size) all) |} st).
      assert (collected (push
                {| total_count := len all;
                   incomplete_results := Some false;
                   items := take (Z.to_nat size)
                              (drop (k * Z.to_nat size) all) |} st)
              = take (S k * Z.to_nat size) all) as Hcol'.
      { cbn [push collected items]. rewrite Hcol, take_take_drop.
        f_equal. lia. }
      split_and!; try done.
      * cbn [push fetchedPages]. lia.
      * cbn [push total items total_count]. rewrite Hfet.
        destruct (decide (k = 0%nat)) as [->|]; [done|].
        destruct (Z.eqb_spec (Z.of_nat k) 0); [lia | done].
      * lia.
      * intros m Hm. unfold pages_exhausted in Hex. rewrite Hm in Hex.
        pose proof (valid_max_pages p Hv m Hm).
        destruct (Z.eqb_spec m 0); [lia|].
        destruct (Z.leb_spec m (fetchedPages st)); [done|]. lia.
      * destruct Hk as [->|[Hk1 Hk2]]; [by left | right; lia].
      * destruct Hk as [->|[Hk1 Hk2]]; lia.
      * cbn [items] in Hstop. rewrite Hcol' in Hstop.
        destruct Hstop as [Hnil | [Hfull | Hnone]].
        -- right; left. apply (f_equal length) in Hnil.
           rewrite length_take, length_drop in Hnil.
           unfold len. simpl in Hnil. lia.
        -- by right; right.
        -- right; left.
           destruct (Z.ltb_spec ((1 + Z.of_nat k) * size) (len all))
             as [Hlt|Hge]; [by vm_compute in Hnone | lia].
  - by destruct Hc as [_ ?].
Qed.

End PagedSourceFacts.

(** ** The aggregation properties *)

Module Aggregation.
Import SearchCode Fixtures Spec SearchCodeFacts PagedSourceFacts.

(** The scenarios of the specification. *)
Example three_pages_of_two_capped_at_four :
  let o := handler 10 (paged_source (some_items 6))
             (with_bounds 2 (Some 4) None) in
  returned_pages o = Some 2 ∧ len <$> returned_items o = Some 4.
Proof. split; vm_compute; reflexivity. Qed.

Example empty_first_page :
  handler 10 (paged_source []) just_q
  = Returned [summary_text 0 0 1;
              json_text {| res_total := 0; res_incomplete := false;
                           res_items := [] |}].
Proof. vm_compute; reflexivity. Qed.

Example one_page_despite_next_link :
  let o := handler 10 (paged_source (some_items 50))
             (with_bounds 25 None (Some 1)) in
  returned_pages o = Some 1 ∧ len <$> returned_items o = Some 25.
Proof. split; vm_compute; reflexivity. Qed.

(** From page 2^53 on the page number no longer advances: the same page
    is asked for again, and the source may answer it differently. *)
Example page_2_53_fetched_twice :
  let o := handler 5 changing_its_mind from_page_2_53 in
  returned_pages o = Some 2 ∧ len <$> returned_items o = Some 4
  ∧ nth_page (destructure from_page_2_53) 1 = 2 ^ 53.
Proof. split_and!; vm_compute; reflexivity. Qed.

(** C1, as the specification words it, fails: with [max_pages = 1] over
    three pages of two items the run returns 2 items, not
    [min(6, 4, 1000) = 4]. *)
Lemma aggregation_as_specified_fails :
  ¬ aggregation_as_specified
      (with_bounds 2 (Some 4) (Some 1)) (some_items 6).
Proof.
  intros (fuel & c & r & n & Hrun & Hr & _ & _ & Hlen).
  destruct fuel as [|[|fuel]]; [done | done |].
  vm_compute in Hrun. injection Hrun as <-.
  injection Hr as <-. vm_compute in Hlen. done.
Qed.

(** C1 (amended): over a finite source of [len all] items served in pages
    of [per_page] items and read from page 1, the handler returns after
    [n] fetches with [1 ≤ n ≤ min(P, max_pages)]; the items returned are a
    prefix of the source, at least
    [min(total_available, max_items, 1000, max_pages * per_page)] of them,
    and exactly that many when [per_page] divides [max_items]. *)
Theorem aggregation_over_paged_source args all :
  inputSchema_ok args = true →
  default 1 (arg_page args) = 1 →
  let p := destructure args in
  ∃ c r n,
    (∀ fuel, (1000 ≤ fuel)%nat →
       handler fuel (paged_source all) args = Returned c)
    ∧ result_of c = Some r ∧ pages_of c = Some n
    ∧ 1 ≤ n ≤ fetch_bound (len all) (per_page p) (max_pages p)
    ∧ res_items r `prefix_of` all
    ∧ res_total r = len all
    ∧ bound (len all) (per_page p) (max_items p) (max_pages p)
      ≤ len (res_items r)
    ∧ ((per_page p | max_items p) →
       len (res_items r)
       = bound (len all) (per_page p) (max_items p) (max_pages p)).
Proof.
  intros Hok Hpage p.
  assert (inputSchema_parse args = inr args) as Hparse.
  { unfold inputSchema_parse. by rewrite Hok. }
  pose proof (parse_valid _ _ Hparse) as Hv. fold p in Hv.
  assert (1 ≤ per_page p ≤ 100) as Hsize by apply Hv.
  assert (1 ≤ max_items p ≤ 1000) as Hmax by apply Hv.
  destruct (paged_loop p all 1000 0 (init p) Hv) as
    (n & st & Hrun & Hn & Hcol & Htot & H1 & Hm & Hfirst & Hprev & Hstop);
    try done; try lia.
  { intros m Hmp. pose proof (valid_max_pages p Hv m Hmp). lia. }
  exists (content st), (search_result st), (fetchedPages st).
  assert (len (collected st)
          = Z.min (Z.of_nat n * per_page p) (len all)) as Hlen.
  { rewrite Hcol. apply len_take_pages. lia. }
  split_and!; try done.
  - intros fuel Hfuel. unfold handler. rewrite Hparse. fold p.
    rewrite (loop_fuel_mono p _ 1000 fuel) by (done || by rewrite Hrun).
    by rewrite Hrun.
  - lia.
  - rewrite Hn. unfold fetch_bound.
    assert (Z.of_nat n ≤ page_count (len all) (per_page p)).
    { apply page_count_lower; lia. }
    destruct (max_pages p) as [m|] eqn:Hmp; [|done].
    specialize (Hm m eq_refl). lia.
  - cbn [search_result res_items]. rewrite Hcol.
    exists (drop (n * Z.to_nat (per_page p)) all).
    by rewrite take_drop.
  - cbn [search_result res_items]. rewrite Hlen. unfold bound.
    rewrite <- Hcol, Hlen in Hstop.
    destruct (max_pages p) as [m|] eqn:Hmp.
    + destruct Hstop as [[= ->] | [? | ?]]; lia.
    + destruct Hstop as [? | [? | ?]]; [done | lia | lia].
  - intros [j Hj]. cbn [search_result res_items]. rewrite Hlen.
    unfold bound. rewrite <- Hcol, Hlen in Hstop.
    assert (Z.of_nat n * per_page p ≤ max_items p).
    { rewrite Hj in *. apply Z.mul_le_mono_nonneg_r; [lia|].
      destruct (Z.le_gt_cases (Z.of_nat n) j) as [|Hgt]; [done|].
      assert (j * per_page p ≤ (Z.of_nat n - 1) * per_page p)
        by (apply Z.mul_le_mono_nonneg_r; lia).
      lia. }
    destruct (max_pages p) as [m|] eqn:Hmp.
    + specialize (Hm m eq_refl).
      assert (Z.of_nat n * per_page p ≤ m * per_page p)
        by (apply Z.mul_le_mono_nonneg_r; lia).
      destruct Hstop as [[= ->] | [? | ?]]; lia.
    + destruct Hstop as [? | [? | ?]]; [done | lia | lia].
Qed.

Lemma aggregation_over_paged_source_witness :
  ∃ c, handler 1000 (paged_source (some_items 6))
         (with_bounds 2 (Some 4) None) = Returned c
       ∧ pages_of c = Some 2
       ∧ len <$> (res_items <$> result_of c) = Some 4.
Proof.
  destruct (aggregation_over_paged_source
              (with_bounds 2 (Some 4) None) (some_items 6)
              eq_refl eq_refl)
    as (c & r & n & Hrun & Hr & Hn & Hfetch & _ & _ & _ & Heq).
  exists c. split; [apply Hrun; lia|].
  assert (n = 2) as ->.
  { specialize (Hrun 1000%nat (le_n _)). vm_compute in Hrun.
    injection Hrun as <-. by injection Hn as <-. }
  split; [done|]. rewrite Hr. simpl. f_equal. rewrite Heq.
  - reflexivity.
  - exists 2. reflexivity.
Defined.

(** C2: the handler can return more items than [max_items].  With
    [max_items = 4] and pages of three items it returns six: line 71
    leaves the loop without cutting [collected] back. *)
Theorem max_items_exceeded :
  ∃ n, len <$> returned_items
                 (handler 10 (paged_source (some_items 6))
                    (with_bounds 3 (Some 4) None)) = Some n
       ∧ Z.min 4 1000 < n.
Proof. exists 6. split; [vm_compute; reflexivity | lia]. Qed.

(** What the loop does guarantee about the length: the last page fetched
    is the only one that can carry it to [max_items] or beyond. *)
Lemma loop_overshoot p octokit fuel st st' :
  valid p →
  len (collected st) < max_items p →
  loop fuel p octokit st = Done st' →
  collected st' = collected st
  ∨ ∃ before d, collected st' = before ++ items d
                ∧ len before < max_items p.
Proof.
  intros Hv. revert st. induction fuel as [|fuel IH]; intros st Hlt;
    [done|].
  simpl. pose proof (iter_cases p octokit st Hv) as Hc.
  destruct (iter p octokit st) as [st1|st1|e]; [| |done].
  - destruct Hc as (d & h & _ & _ & -> & _ & Hlt' & _).
    intros Hrun. apply IH in Hrun as [-> | ?]; [|by right|done].
    right. by exists (collected st), d.
  - intros [= <-]. destruct Hc as [[_ ->] | (d & h & _ & _ & -> & _)].
    + by left.
    + right. by exists (collected st), d.
Qed.

(** C3: if the answer to one of the calls of a run reports
    [incomplete_results = true], so does the result; and no turn of the
    loop resets the flag.  The call number [k] asks for the page number
    that [k] increments of line 77 make of [page]. *)
Theorem sticky_incomplete fuel octokit args c r n (k : nat) d h :
  handler fuel octokit args = Returned c →
  result_of c = Some r → pages_of c = Some n →
  Z.of_nat k < n →
  octokit (Z.of_nat k)
    (request (destructure args) (nth_page (destructure args) k))
  = inr (d, h) →
  incomplete_results d = Some true →
  res_incomplete r = true
  ∧ ∀ st st',
      iter (destructure args) octokit st = Continue st'
      ∨ iter (destructure args) octokit st = Break st' →
      incomplete st = true → incomplete st' = true.
Proof.
  intros Hrun Hr Hn Hk Hreq Hd. split.
  - apply (returned_incomplete_iff fuel octokit args c r n Hrun Hr Hn).
    by exists k, d, h.
  - intros st st' Hstep. by apply (iter_frame _ _ _ _ Hstep).
Qed.

Lemma sticky_incomplete_witness :
  ∃ c r, handler 5 changing_its_mind from_page_2_53 = Returned c
         ∧ result_of c = Some r ∧ pages_of c = Some 2
         ∧ nth_page (destructure from_page_2_53) 1 = 2 ^ 53
         ∧ res_incomplete r = true.
Proof.
  eexists _, _. split; [vm_compute; reflexivity|].
  split; [reflexivity|]. split; [reflexivity|].
  split; [vm_compute; reflexivity|].
  eapply (sticky_incomplete 5 changing_its_mind from_page_2_53 _ _ 2 1);
    [vm_compute; reflexivity | reflexivity | reflexivity | lia
    | vm_compute; reflexivity | reflexivity].
Defined.

(** C4: [total] of the result is the [total_count] of the first page
    fetched, and no later turn changes it. *)
Theorem total_fixed_by_first_page fuel octokit args c r :
  handler fuel octokit args = Returned c →
  result_of c = Some r →
  (∃ d h, octokit 0 (request (destructure args) (page (destructure args)))
          = inr (d, h)
          ∧ res_total r = total_count d)
  ∧ ∀ st st',
      iter (destructure args) octokit st = Continue st'
      ∨ iter (destructure args) octokit st = Break st' →
      fetchedPages st ≠ 0 → total st' = total st.
Proof.
  intros (ds & st & _ & Hne & Hs & Hf & ->)%handler_returned [= <-].
  split; [|intros st0 st' Hstep; by apply (iter_frame _ _ _ _ Hstep)].
  destruct ds as [|d ds]; [done|].
  destruct (Hs 0%nat d eq_refl) as [h Hreq].
  exists d, h. split; [done|].
  cbn [search_result res_total]. by rewrite (folds_total _ _ Hf).
Qed.

Lemma total_fixed_by_first_page_witness :
  ∃ c r, handler 5 disagreeing just_q = Returned c
         ∧ result_of c = Some r ∧ pages_of c = Some 3
         ∧ ∃ d h, disagreeing 0 (request (destructure just_q) 1)
                  = inr (d, h)
                  ∧ res_total r = total_count d.
Proof.
  eexists _, _. split; [vm_compute; reflexivity|].
  split; [reflexivity|]. split; [reflexivity|].
  refine (proj1 (total_fixed_by_first_page 5 disagreeing just_q _ _ _ _));
    [vm_compute; reflexivity | reflexivity].
Defined.

(** With valid locals no turn shortens [collected]: line 72 is never
    reached with [collected.length >= 1000], since [max_items ≤ 1000]
    makes line 71 leave the loop first. *)
Lemma ceiling_branch_unreachable p octokit st st' :
  valid p →
  iter p octokit st = Continue st' ∨ iter p octokit st = Break st' →
  collected st `prefix_of` collected st'.
Proof.
  intros Hv Hstep. pose proof (iter_cases p octokit st Hv) as Hc.
  destruct Hstep as [Hstep|Hstep]; rewrite Hstep in Hc.
  - destruct Hc as (d & h & _ & _ & -> & _). by exists (items d).
  - destruct Hc as [[_ ->] | (d & h & _ & _ & -> & _)];
      [done | by exists (items d)].
Qed.

(** C5: the handler can return more than 1000 items.  With the default
    [max_items] and pages of seven items, the 143rd page brings the count
    to 1001; the loop stops there, at line 71, and nothing cuts the
    collection back to 1000. *)
Theorem ceiling_exceeded :
  returned_pages
    (handler 200 (paged_source (some_items 1010))
       (with_bounds 7 None None)) = Some 143
  ∧ len <$> returned_items
              (handler 200 (paged_source (some_items 1010))
                 (with_bounds 7 None None)) = Some 1001.
Proof. split; vm_compute; reflexivity. Qed.

(** C7: when a page fetch fails after [n] turns that went on, the handler
    rejects with that error, whatever had been collected, and returns no
    items. *)
Theorem fail_fast fuel octokit args n st e :
  inputSchema_ok args = true →
  turns (destructure args) octokit n (init (destructure args)) st →
  pages_exhausted (destructure args) st = false →
  octokit (fetchedPages st) (request (destructure args) (current st))
  = inl e →
  (n < fuel)%nat →
  handler fuel octokit args = Rejected e
  ∧ returned_items (handler fuel octokit args) = None.
Proof.
  intros Hok Hturns Hex Hreq Hfuel.
  assert (handler fuel octokit args = Rejected e) as ->; [|done].
  unfold handler, inputSchema_parse. rewrite Hok.
  replace fuel with (n + S (fuel - S n))%nat by lia.
  rewrite (turns_loop _ _ _ _ _ _ Hturns). simpl.
  unfold iter. by rewrite Hex, Hreq.
Qed.

Lemma fail_fast_witness :
  handler 5 failing_after_first just_q = Rejected (RequestError 403)
  ∧ returned_items (handler 5 failing_after_first just_q) = None.
Proof.
  eapply (fail_fast 5 failing_after_first just_q 1 _ (RequestError 403)).
  - reflexivity.
  - eapply turns_more; [vm_compute; reflexivity | apply turns_none].
  - reflexivity.
  - reflexivity.
  - lia.
Defined.

(** C8, as the specification words it, fails: a call without [per_page]
    passes the schema and the upstream is asked for 100 items a page, so
    two sources that differ only in what they answer to such a request
    lead to different outcomes. *)
Lemma page_size_as_specified_fails : ¬ page_size_as_specified just_q.
Proof.
  intros H. specialize (H echo_page_size deaf_to_100 1%nat).
  assert (handler 1 echo_page_size just_q
          = Rejected (RequestError 100)) as Hecho by reflexivity.
  assert (handler 1 deaf_to_100 just_q
          = Rejected (RequestError 0)) as Hdeaf by reflexivity.
  rewrite Hecho, Hdeaf in H. discriminate H.
  intros k r Hr. unfold deaf_to_100, echo_page_size.
  destruct (Z.eqb_spec (req_per_page r) 100); [lia | done].
Qed.

Example default_page_size_reaches_upstream :
  handler 5 echo_page_size just_q = Rejected (RequestError 100).
Proof. vm_compute; reflexivity. Qed.

(** The handler consults the source only through requests built from its
    own locals. *)
Lemma loop_own_requests p octokit octokit' fuel st :
  (∀ k current,
     octokit k (request p current) = octokit' k (request p current)) →
  loop fuel p octokit st = loop fuel p octokit' st.
Proof.
  intros Hagree. revert st. induction fuel as [|fuel IH]; intros st;
    [done|].
  simpl. unfold iter. rewrite <- Hagree.
  repeat case_match; try done; apply IH.
Qed.

Lemma valid_sends_own_page_size args :
  inputSchema_ok args = true →
  sends_page_size args (default 100 (arg_per_page args)).
Proof.
  intros Hok.
  assert (valid (destructure args)) as Hv.
  { apply (parse_valid args). unfold inputSchema_parse. by rewrite Hok. }
  split.
  - intros fuel. unfold handler, inputSchema_parse. rewrite Hok.
    cbn [loop]. unfold iter.
    assert (pages_exhausted (destructure args) (init (destructure args))
            = false) as ->; [|done].
    unfold pages_exhausted.
    destruct (max_pages (destructure args)) as [m|] eqn:Hm; [|done].
    pose proof (valid_max_pages _ Hv m Hm).
    apply andb_false_intro2. cbn. lia.
  - intros octokit octokit' fuel Hagree. unfold handler.
    destruct (inputSchema_parse args) as [e|a] eqn:Hparse; [done|].
    apply parse_accepts in Hparse as [-> _].
    rewrite (loop_own_requests _ octokit octokit'); [done|].
    intros k current. by apply Hagree.
Qed.

(** C8 (amended): a [per_page] given by the caller is sent upstream as it
    is when within 1..25 and the call is rejected by the schema otherwise;
    when the caller gives none, 100 is sent.  The value is told by what
    reaches the upstream: the request asks for that many items a page, and
    no request asks for another number. *)
Theorem per_page_sent args :
  match arg_per_page args with
  | Some n =>
      if (1 <=? n) && (n <=? 25)
      then inputSchema_ok args = true → sends_page_size args n
      else ∀ fuel octokit, handler fuel octokit args = Rejected ZodError
  | None => inputSchema_ok args = true → sends_page_size args 100
  end.
Proof.
  pose proof (valid_sends_own_page_size args) as Hsends.
  destruct (arg_per_page args) as [n|] eqn:Hpp; [|done].
  destruct ((1 <=? n) && (n <=? 25)) eqn:Hrange; [done|].
  intros fuel octokit. unfold handler, inputSchema_parse.
  unfold inputSchema_ok. rewrite Hpp. cbn [opt_in_range].
  rewrite Hrange. by rewrite andb_false_r.
Qed.

Lemma per_page_sent_witness :
  sends_page_size just_q 100
  ∧ sends_page_size (with_bounds 7 None None) 7
  ∧ handler 5 failing_after_first (with_bounds 26 None None)
    = Rejected ZodError.
Proof.
  split_and!.
  - exact (per_page_sent just_q eq_refl).
  - exact (per_page_sent (with_bounds 7 None None) eq_refl).
  - exact (per_page_sent (with_bounds 26 None None) 5%nat
             failing_after_first).
Defined.

(** C10: the result is flagged incomplete exactly when the answer to one
    of the calls of the run carries [incomplete_results = true]; an answer
    without the field leaves the flag as it was.  The call number [k] asks
    for the page number that [k] increments of line 77 make of [page]. *)
Theorem missing_flag_counts_as_false fuel octokit args c r n :
  handler fuel octokit args = Returned c →
  result_of c = Some r → pages_of c = Some n →
  (res_incomplete r = true
   ↔ ∃ (k : nat) d h,
       Z.of_nat k < n
       ∧ octokit (Z.of_nat k)
           (request (destructure args) (nth_page (destructure args) k))
         = inr (d, h)
       ∧ incomplete_results d = Some true)
  ∧ ∀ st st' d h,
      octokit (fetchedPages st) (request (destructure args) (current st))
      = inr (d, h) →
      incomplete_results d = None →
      iter (destructure args) octokit st = Continue st'
      ∨ iter (destructure args) octokit st = Break st' →
      incomplete st' = incomplete st.
Proof.
  intros Hrun Hr Hn. split.
  - by apply (returned_incomplete_iff fuel octokit args c).
  - by apply iter_flag_missing.
Qed.

Lemma missing_flag_counts_as_false_witness :
  ∃ c r, handler 5 failing_after_first (with_bounds 25 None (Some 1))
         = Returned c
         ∧ result_of c = Some r ∧ res_incomplete r = false.
Proof.
  eexists _, _. split; [vm_compute; reflexivity|].
  split; [reflexivity|].
  apply not_true_is_false. intros Htrue.
  apply (missing_flag_counts_as_false 5 failing_after_first
           (with_bounds 25 None (Some 1)) _ _ 1 eq_refl eq_refl eq_refl)
    in Htrue as (k & d & h & Hk & Hreq & Hd).
  assert (k = 0%nat) as -> by lia.
  vm_compute in Hreq. injection Hreq as <- _. discriminate Hd.
Defined.

End Aggregation.

(** ** The session registry *)

Module Registry.
Import Sessions Fixtures Spec.


(** [ensureTransport] itself never touches the map. *)
Lemma ensureTransport_transports {T} (sdk : Sdk T) sid σ :
  transports (ensureTransport sdk sid σ).2 = transports σ.
Proof. unfold ensureTransport. by destruct (lookup_session σ sid). Qed.

(** A known id resolves to its transport and nothing changes. *)
Lemma ensureTransport_known {T} (sdk : Sdk T) sid t σ :
  truthy sid = true → transports σ !! sid = Some t →
  ensureTransport sdk (Some sid) σ = (transport_object t, σ).
Proof.
  intros Hs Ht. unfold ensureTransport, lookup_session.
  by rewrite Hs, Ht.
Qed.

(** The map changes only through the callbacks a transport invokes. *)
Lemma handleRequest_quiet {T} (sdk : Sdk T) uuid t req σ ts res :
  sdk_handleRequest sdk (objects σ t) uuid req = (ts, [], res) →
  transports (handleRequest sdk uuid t req σ).1 = transports σ
  ∧ (handleRequest sdk uuid t req σ).2 = res.
Proof. unfold handleRequest. by intros ->. Qed.

(** C6: a DELETE that presents the session id [constructor] to a server
    that never registered any session is not rejected as an invalid
    session.  [transports["constructor"]] is the function every plain
    object inherits, the guard of line 157 lets it through, and the call of
    line 158 throws: the answer is a 500, not the 400 of line 157.  No
    session is created. *)
Theorem inherited_name_not_rejected {T} (sdk : Sdk T) uuid :
  let req := {| method := DELETE; mcp_session_id := Some "constructor";
                body := None |} in
  is_handshake req = false
  ∧ transports (start sdk) !! "constructor" = None
  ∧ route (method req) = Some session_only
  ∧ app sdk uuid req (start sdk) = (start sdk, internal_error)
  ∧ status internal_error ≠ status invalid_session.
Proof. by split_and!. Qed.



End Registry.

(** ** Further properties of the tool handler *)

Module HandlerFacts.
Import SearchCode Fixtures Spec Behaviour SearchCodeFacts.

Lemma as_int_fits lo hi v :
  fits_int lo hi v
  ↔ ∃ o, as_int v = Some o ∧ opt_in_range lo hi o = true.
Proof.
  split.
  - intros [-> | (n & -> & Hlo & Hhi)].
    + by exists None.
    + exists (Some n). split; [done|]. simpl.
      apply andb_true_intro. split; [lia|]. destruct hi; [lia | done].
  - intros (o & Hv & Hr). destruct v; simplify_eq/=; [by left|].
    right. exists n. split; [done|].
    apply andb_prop in Hr as [Hlo Hhi]. split; [lia|].
    destruct hi; [lia | done].
Qed.

Lemma as_string_fits v :
  (∃ s, v = Jstring s ∧ s ≠ "")
  ↔ ∃ s, as_string v = Some s ∧ (1 <=? String.length s)%nat = true.
Proof.
  split.
  - intros (s & -> & Hs). exists s. split; [done|]. by destruct s.
  - intros (s & Hv & Hs). destruct v; simplify_eq/=.
    exists s. split; [done|]. by destruct s.
Qed.

Lemma as_sort_fits v :
  v = Jundefined ∨ v = Jstring "indexed" ↔ is_Some (as_sort v).
Proof.
  split.
  - by intros [-> | ->].
  - destruct v; simpl; try (by intros [? ?]); [by left|].
    destruct (String.eqb_spec s "indexed") as [->|]; [by right|].
    by intros [? ?].
Qed.

Lemma as_order_fits v :
  v = Jundefined ∨ v = Jstring "asc" ∨ v = Jstring "desc"
  ↔ is_Some (as_order v).
Proof.
  split.
  - by intros [-> | [-> | ->]].
  - destruct v; simpl; try (by intros [? ?]); [by left|].
    destruct (String.eqb_spec s "asc") as [->|]; [by right; left|].
    destruct (String.eqb_spec s "desc") as [->|]; [by right; right|].
    by intros [? ?].
Qed.

Lemma as_boolean_fits v :
  v = Jundefined ∨ (∃ b, v = Jboolean b) ↔ is_Some (as_boolean v).
Proof.
  split.
  - by intros [-> | [b ->]].
  - destruct v; simpl; try (by intros [? ?]); [by left|].
    right. by exists b.
Qed.

(** The two steps of [inputSchema.parse] together accept what the schema
    describes. *)
Lemma accepted_iff raw :
  accepted_by_schema raw
  ↔ ∃ args, inputSchema_types raw = Some args
            ∧ inputSchema_ok args = true.
Proof.
  split.
  - intros [(q & Hq & Hqok)%as_string_fits [so Hso]%as_sort_fits
            [oo Hoo]%as_order_fits
            (pp & Hpp & Hppok)%as_int_fits (pg & Hpg & Hpgok)%as_int_fits
            (mi & Hmi & Hmiok)%as_int_fits (mp & Hmp & Hmpok)%as_int_fits
            [tm Htm]%as_boolean_fits].
    eexists. unfold inputSchema_types.
    rewrite Hq, Hso, Hoo, Hpp, Hpg, Hmi, Hmp, Htm. split; [done|].
    unfold inputSchema_ok. cbn [arg_q arg_per_page arg_page arg_max_items
                                 arg_max_pages].
    by rewrite Hqok, Hppok, Hpgok, Hmiok, Hmpok.
  - intros (args & Htypes & Hok). unfold inputSchema_types in Htypes.
    destruct (as_string (raw_q raw)) as [q|] eqn:Hq; [|done].
    destruct (as_sort (raw_sort raw)) as [so|] eqn:Hso; [|done].
    destruct (as_order (raw_order raw)) as [oo|] eqn:Hoo; [|done].
    destruct (as_int (raw_per_page raw)) as [pp|] eqn:Hpp; [|done].
    destruct (as_int (raw_page raw)) as [pg|] eqn:Hpg; [|done].
    destruct (as_int (raw_max_items raw)) as [mi|] eqn:Hmi; [|done].
    destruct (as_int (raw_max_pages raw)) as [mp|] eqn:Hmp; [|done].
    destruct (as_boolean (raw_text_match raw)) as [tm|] eqn:Htm; [|done].
    simpl in Htypes. injection Htypes as <-.
    unfold inputSchema_ok in Hok. rewrite !andb_true_iff in Hok.
    destruct Hok as ((((Hqok & Hppok) & Hpgok) & Hmiok) & Hmpok).
    split.
    + apply as_string_fits. by exists q.
    + apply as_sort_fits. by rewrite Hso.
    + apply as_order_fits. by rewrite Hoo.
    + apply as_int_fits. by exists pp.
    + apply as_int_fits. by exists pg.
    + apply as_int_fits. by exists mi.
    + apply as_int_fits. by exists mp.
    + apply as_boolean_fits. by rewrite Htm.
Qed.

(** X1: a call is rejected with a validation error, whatever the source
    and without consulting it, exactly when its arguments are not what the
    schema describes: [q] a non-empty string; [sort] and [order] absent or
    one of their names; [per_page], [page], [max_items], [max_pages]
    absent or an integer within their bounds; [text_match] absent or a
    boolean. *)
Theorem schema_violation_rejected raw :
  ¬ accepted_by_schema raw
  ↔ ∀ fuel octokit, search_code fuel octokit raw = Rejected ZodError.
Proof.
  rewrite accepted_iff. split.
  - intros Hbad fuel octokit. unfold search_code.
    destruct (inputSchema_types raw) as [args|]; [|done].
    unfold handler, inputSchema_parse.
    destruct (inputSchema_ok args) eqn:Hok; [|done].
    destruct Hbad. by exists args.
  - intros Hrej (args & Htypes & Hok).
    specialize (Hrej 0%nat echo_page_size).
    unfold search_code, handler, inputSchema_parse in Hrej.
    by rewrite Htypes, Hok in Hrej.
Qed.

Lemma schema_violation_rejected_witness :
  search_code 5 echo_page_size
    {| raw_q := Jstring "repo:o/r"; raw_sort := Jundefined;
       raw_order := Jundefined; raw_per_page := Jnumber;
       raw_page := Jundefined; raw_max_items := Jundefined;
       raw_max_pages := Jundefined; raw_text_match := Jundefined |}
  = Rejected ZodError.
Proof.
  apply (proj1 (schema_violation_rejected _)).
  intros [_ _ _ [Hpp | (n & Hpp & _)] _ _ _ _]; discriminate Hpp.
Defined.

Lemma loop_never_throws p octokit fuel st e :
  never_fails octokit → loop fuel p octokit st ≠ Threw e.
Proof.
  intros Hnf. revert st. induction fuel as [|fuel IH]; intros st; [done|].
  simpl. unfold iter. destruct (pages_exhausted p st); [done|].
  destruct (Hnf (fetchedPages st) (request p (current st)))
    as (d & h & ->).
  repeat case_match; try done; apply IH.
Qed.

(** X2: the loop needs no more than 1000 turns, whatever the source
    answers: with that much fuel the handler has returned or rejected, and
    more fuel changes nothing. *)
Theorem handler_terminates octokit args fuel :
  (1000 ≤ fuel)%nat →
  handler fuel octokit args ≠ Unfinished
  ∧ handler fuel octokit args = handler 1000 octokit args.
Proof.
  intros Hfuel. split; [by apply handler_finishes|].
  pose proof (handler_finishes octokit args 1000 (le_n _)) as Hfin.
  unfold handler in *.
  destruct (inputSchema_parse args) as [e|a]; [done|].
  rewrite (loop_fuel_mono _ _ 1000 fuel); [done | done |].
  intros Hout. by rewrite Hout in Hfin.
Qed.

Lemma handler_terminates_witness :
  handler 5000 disagreeing just_q ≠ Unfinished
  ∧ handler 5000 disagreeing just_q = handler 1000 disagreeing just_q.
Proof. apply (handler_terminates disagreeing just_q 5000). lia. Defined.

(** X3: a call that passes the schema, against a source that answers every
    request, returns a result. *)
Theorem valid_call_returns octokit args fuel :
  inputSchema_ok args = true →
  never_fails octokit →
  (1000 ≤ fuel)%nat →
  ∃ c r, handler fuel octokit args = Returned c ∧ result_of c = Some r.
Proof.
  intros Hok Hnf Hfuel.
  pose proof (handler_finishes octokit args fuel Hfuel) as Hfin.
  unfold handler, inputSchema_parse in *. rewrite Hok in *.
  pose proof (loop_never_throws (destructure args) octokit fuel
                (init (destructure args))) as Hthrow.
  destruct (loop fuel _ octokit _) as [st|e|]; [|by edestruct Hthrow|done].
  by exists (content st), (search_result st).
Qed.

Lemma paged_source_never_fails all : never_fails (paged_source all).
Proof. intros k r. by eexists _, _. Qed.

Lemma valid_call_returns_witness :
  ∃ c r, handler 1000 (paged_source (some_items 6)) just_q = Returned c
         ∧ result_of c = Some r.
Proof.
  apply (valid_call_returns (paged_source (some_items 6)) just_q 1000).
  - reflexivity.
  - apply paged_source_never_fails.
  - lia.
Defined.

Lemma handler_done fuel octokit args c :
  handler fuel octokit args = Returned c →
  inputSchema_ok args = true
  ∧ ∃ st, loop fuel (destructure args) octokit (init (destructure args))
          = Done st
          ∧ c = content st.
Proof.
  unfold handler, inputSchema_parse.
  destruct (inputSchema_ok args); [|done]. split; [done|].
  destruct (loop fuel _ octokit _) as [st| |]; try done.
  exists st. split; [done | congruence].
Qed.

Lemma handler_done_folds fuel octokit args c :
  handler fuel octokit args = Returned c →
  inputSchema_ok args = true
  ∧ ∃ st ds,
      loop fuel (destructure args) octokit (init (destructure args))
      = Done st
      ∧ c = content st
      ∧ ds ≠ [] ∧ serves (destructure args) octokit ds ∧ folds ds st.
Proof.
  intros (Hok & st & Hloop & ->)%handler_done. split; [done|].
  assert (valid (destructure args)) as Hv.
  { apply (parse_valid args). unfold inputSchema_parse. by rewrite Hok. }
  pose proof (loop_folds (destructure args) octokit fuel []
                (init (destructure args)) Hv) as Hl.
  rewrite Hloop in Hl. destruct Hl as (ds & Hne & Hs & Hf).
  - by intros k d Hk.
  - apply folds_init.
  - done.
  - by exists st, ds.
Qed.

Lemma ok_valid args : inputSchema_ok args = true → valid (destructure args).
Proof.
  intros Hok. apply (parse_valid args).
  unfold inputSchema_parse. by rewrite Hok.
Qed.

(** Every turn that goes on has fetched a page with items, so the pages
    fetched never outnumber the items collected by more than the page of
    the last turn. *)
Lemma loop_fetch_count p octokit fuel st st' :
  valid p →
  fetchedPages st ≤ len (collected st) →
  len (collected st) < max_items p →
  (∀ m, max_pages p = Some m → fetchedPages st ≤ m) →
  loop fuel p octokit st = Done st' →
  fetchedPages st' ≤ max_items p
  ∧ ∀ m, max_pages p = Some m → fetchedPages st' ≤ m.
Proof.
  intros Hv. revert st.
  induction fuel as [|fuel IH]; intros st Hcount Hlt Hpages; [done|].
  simpl. pose proof (iter_cases p octokit st Hv) as Hc.
  assert (pages_exhausted p st = false →
          ∀ m, max_pages p = Some m → fetchedPages st + 1 ≤ m) as Hnext.
  { intros Hex m Hm. unfold pages_exhausted in Hex. rewrite Hm in Hex.
    pose proof (valid_max_pages p Hv m Hm).
    destruct (Z.eqb_spec m 0); [lia|].
    destruct (Z.leb_spec m (fetchedPages st)); [done | lia]. }
  destruct (iter p octokit st) as [st1|st1|e]; [| |done].
  - destruct Hc as (d & h & Hex & _ & -> & Hne & Hlt' & _).
    apply IH; [|done|by apply Hnext].
    cbn [advance push fetchedPages collected]. rewrite len_app.
    apply len_pos in Hne. lia.
  - intros [= <-]. destruct Hc as [[_ ->] | (d & h & Hex & _ & -> & _)].
    + split; [lia | done].
    + cbn [push fetchedPages]. split; [lia | by apply Hnext].
Qed.

(** X4: whatever the source answers, a call that returns has fetched at
    least one page, at most [max_pages] pages when that bound is given, and
    never more than [max_items] pages. *)
Theorem fetches_bounded fuel octokit args c n :
  handler fuel octokit args = Returned c →
  pages_of c = Some n →
  1 ≤ n ≤ max_items (destructure args)
  ∧ ∀ m, arg_max_pages args = Some m → n ≤ m.
Proof.
  intros (Hok & st & ds & Hloop & -> & Hne & _ & Hf)%handler_done_folds
    Hn.
  injection Hn as <-.
  apply ok_valid in Hok as Hv.
  assert (1 ≤ max_items (destructure args) ≤ 1000) as Hmi by apply Hv.
  destruct (loop_fetch_count (destructure args) octokit fuel
              (init (destructure args)) st Hv) as [Hmax Hpages];
    [| | |exact Hloop|].
  - done.
  - unfold init, len. cbn [collected length]. lia.
  - intros m Hm. pose proof (valid_max_pages _ Hv m Hm).
    unfold init. cbn [fetchedPages]. lia.
  - split; [|done]. split; [|done].
    rewrite (folds_fetched _ _ Hf). apply len_pos. done.
Qed.

Lemma fetches_bounded_witness :
  let args := with_bounds 5 (Some 100) (Some 3) in
  ∃ c n, handler 10 (paged_source (some_items 20)) args = Returned c
         ∧ pages_of c = Some n
         ∧ 1 ≤ n ≤ max_items (destructure args)
         ∧ ∀ m, arg_max_pages args = Some m → n ≤ m.
Proof.
  intros args. eexists _, _. split; [vm_compute; reflexivity|].
  split; [reflexivity|].
  eapply (fetches_bounded 10 (paged_source (some_items 20)) args);
    [vm_compute; reflexivity | reflexivity].
Defined.

(** X5: the items returned are the items of the answers to the calls of
    the run, concatenated in the order of the calls: nothing is dropped,
    cut or reordered.  The call number [k] asks for the page number that
    [k] increments of line 77 make of [page]. *)
Theorem items_are_pages_in_order fuel octokit args c r n :
  handler fuel octokit args = Returned c →
  result_of c = Some r → pages_of c = Some n →
  ∃ ds, len ds = n
        ∧ serves (destructure args) octokit ds
        ∧ res_items r = concat (items <$> ds).
Proof.
  intros (ds & st & _ & _ & Hs & Hf & ->)%handler_returned [= <-] [= <-].
  exists ds. split_and!; [|done|].
  - by rewrite (folds_fetched _ _ Hf).
  - apply (folds_collected _ _ Hf).
Qed.

Lemma items_are_pages_in_order_witness :
  ∃ c r, handler 5 disagreeing just_q = Returned c
         ∧ result_of c = Some r
         ∧ ∃ ds, len ds = 3
                 ∧ serves (destructure just_q) disagreeing ds
                 ∧ res_items r = concat (items <$> ds).
Proof.
  eexists _, _. split; [vm_compute; reflexivity|].
  split; [reflexivity|].
  eapply (items_are_pages_in_order 5 disagreeing just_q);
    [vm_compute; reflexivity | reflexivity | reflexivity].
Defined.

(** The items collected are short of [max_items] until the page of the
    last turn is appended. *)
Lemma loop_last_page p octokit fuel st st' :
  valid p →
  (collected st = []
   ∨ ∃ before d h i k, octokit i (request p k) = inr (d, h)
       ∧ collected st = before ++ items d ∧ len before < max_items p) →
  len (collected st) < max_items p →
  loop fuel p octokit st = Done st' →
  collected st' = []
  ∨ ∃ before d h i k, octokit i (request p k) = inr (d, h)
      ∧ collected st' = before ++ items d ∧ len before < max_items p.
Proof.
  intros Hv. revert st.
  induction fuel as [|fuel IH]; intros st Hinv Hlt; [done|].
  simpl. pose proof (iter_cases p octokit st Hv) as Hc.
  destruct (iter p octokit st) as [st1|st1|e]; [| |done].
  - destruct Hc as (d & h & _ & Hreq & -> & _ & Hlt' & _).
    apply IH; [|done]. right.
    by exists (collected st), d, h, (fetchedPages st), (current st).
  - intros [= <-]. destruct Hc as [[_ ->] | (d & h & _ & Hreq & -> & _)].
    + done.
    + right. by exists (collected st), d, h, (fetchedPages st), (current st).
Qed.

(** X6: against a source whose pages hold at most [per_page] items, the
    handler returns fewer than [max_items + per_page] items. *)
Theorem overshoot_below_one_page fuel octokit args c r :
  honours_page_size octokit →
  handler fuel octokit args = Returned c →
  result_of c = Some r →
  len (res_items r)
  < max_items (destructure args) + per_page (destructure args).
Proof.
  intros Hsize (Hok & st & Hloop & ->)%handler_done [= <-].
  apply ok_valid in Hok as Hv.
  assert (1 ≤ max_items (destructure args) ≤ 1000) as Hmax by apply Hv.
  assert (1 ≤ per_page (destructure args) ≤ 100) as Hpp by apply Hv.
  cbn [search_result res_items].
  destruct (loop_last_page (destructure args) octokit fuel
              (init (destructure args)) st Hv)
    as [-> | (before & d & h & i & k & Hreq & -> & Hlt)];
    [| |exact Hloop| |].
  - by left.
  - unfold init, len. cbn [collected length]. lia.
  - unfold len. cbn [length]. lia.
  - apply Hsize in Hreq; cbn [request req_per_page] in *; [|lia].
    rewrite len_app. lia.
Qed.

Lemma paged_source_honours_page_size all :
  honours_page_size (paged_source all).
Proof.
  intros k r d h Hsize [= <- _]. cbn [items]. unfold len.
  rewrite length_take. lia.
Qed.

Lemma overshoot_below_one_page_witness :
  ∃ c r, handler 10 (paged_source (some_items 6))
           (with_bounds 3 (Some 4) None) = Returned c
         ∧ result_of c = Some r
         ∧ len (res_items r) < 4 + 3.
Proof.
  eexists _, _. split; [vm_compute; reflexivity|].
  split; [reflexivity|].
  eapply (overshoot_below_one_page 10 (paged_source (some_items 6))
            (with_bounds 3 (Some 4) None));
    [apply paged_source_honours_page_size | vm_compute; reflexivity
    | reflexivity].
Defined.

(** X7: the returned [content] is the summary line, the JSON text and then
    one link per item for the first 50 items, in order; the summary line
    carries the total and the item count of the JSON payload. *)
Theorem content_shape fuel octokit args c r :
  handler fuel octokit args = Returned c →
  result_of c = Some r →
  length c = (2 + min 50 (length (res_items r)))%nat
  ∧ (∃ n, c !! 0%nat
          = Some (summary_text (res_total r) (len (res_items r)) n))
  ∧ ∀ (k : nat) item,
      (k < 50)%nat → res_items r !! k = Some item →
      c !! (2 + k)%nat = Some (link_of item).
Proof.
  intros (_ & st & _ & ->)%handler_done [= <-].
  unfold content. cbn [search_result res_items res_total].
  split_and!.
  - pose proof (length_take (collected st) 50) as Hlen.
    revert Hlen. generalize (take 50 (collected st)). intros first Hlen.
    cbn [length]. rewrite length_fmap. lia.
  - by eexists.
  - intros k item Hk Hitem.
    assert (take 50 (collected st) !! k = Some item) as Hfirst
      by (by rewrite lookup_take_lt).
    revert Hfirst. generalize (take 50 (collected st)). intros first Hfirst.
    change ((link_of <$> first) !! k = Some (link_of item)).
    by rewrite list_lookup_fmap, Hfirst.
Qed.

Lemma content_shape_witness :
  ∃ c r, handler 200 (paged_source (some_items 60))
           (with_bounds 25 None None) = Returned c
         ∧ result_of c = Some r
         ∧ length c = (2 + min 50 (length (res_items r)))%nat
         ∧ (∃ n, c !! 0%nat
                 = Some (summary_text (res_total r) (len (res_items r)) n))
         ∧ ∀ (k : nat) item,
             (k < 50)%nat → res_items r !! k = Some item →
             c !! (2 + k)%nat = Some (link_of item).
Proof.
  eexists _, _. split; [vm_compute; reflexivity|].
  split; [reflexivity|].
  eapply (content_shape 200 (paged_source (some_items 60))
            (with_bounds 25 None None));
    [vm_compute; reflexivity | reflexivity].
Defined.

Lemma loop_window p octokit octokit' fuel st :
  valid p →
  agree_on_window p octokit octokit' →
  (∃ k : nat, fetchedPages st = Z.of_nat k ∧ current st = nth_page p k) →
  fetchedPages st ≤ len (collected st) →
  len (collected st) < max_items p →
  loop fuel p octokit st = loop fuel p octokit' st.
Proof.
  intros Hv Hagree. revert st.
  induction fuel as [|fuel IH]; intros st (k & Hk & Hcur) Hcount Hlt;
    [done|].
  assert (iter p octokit st = iter p octokit' st) as Hiter.
  { unfold iter. rewrite Hk, Hcur, Hagree; [done|]. lia. }
  simpl. rewrite Hiter.
  pose proof (iter_cases p octokit' st Hv) as Hc.
  destruct (iter p octokit' st) as [st1|st1|e]; [|done|done].
  destruct Hc as (d & h & _ & _ & -> & Hne & Hlt' & _).
  apply len_pos in Hne.
  apply IH; cbn [advance push current fetchedPages collected] in *;
    rewrite ?len_app in *; [|lia|lia].
  exists (S k). split; [lia|]. by rewrite Hcur.
Qed.

(** X8: the outcome rests on what the source answers to the first
    [max_items] calls of the run, each for its own page number, and on
    nothing else: two sources that answer these alike give the same
    outcome. *)
Theorem outcome_depends_on_window fuel octokit octokit' args :
  agree_on_window (destructure args) octokit octokit' →
  handler fuel octokit args = handler fuel octokit' args.
Proof.
  intros Hagree. unfold handler.
  destruct (inputSchema_parse args) as [e|a] eqn:Hparse; [done|].
  pose proof (parse_valid _ _ Hparse) as Hv.
  apply parse_accepts in Hparse as [-> _].
  assert (1 ≤ max_items (destructure args) ≤ 1000) as Hmax by apply Hv.
  rewrite (loop_window (destructure args) octokit octokit'); try done.
  - by exists 0%nat.
  - unfold init, len. cbn [collected length]. lia.
Qed.

Lemma outcome_depends_on_window_witness :
  handler 10 failing_after_first (with_bounds 2 (Some 1) None)
  = handler 10 recovering (with_bounds 2 (Some 1) None).
Proof.
  apply (outcome_depends_on_window 10 failing_after_first recovering
           (with_bounds 2 (Some 1) None)).
  intros k Hk. cbn in Hk. assert (k = 0%nat) as -> by lia.
  vm_compute. reflexivity.
Defined.

Lemma loop_goes_on p octokit fuel st st' (j : nat) :
  valid p →
  fetchedPages st = Z.of_nat j → current st = nth_page p j →
  loop fuel p octokit st = Done st' →
  ∀ k : nat, (j ≤ k)%nat → Z.of_nat k < fetchedPages st' - 1 →
    goes_on p octokit k.
Proof.
  intros Hv. revert st j.
  induction fuel as [|fuel IH]; intros st j Hj Hcur; [done|].
  simpl. pose proof (iter_cases p octokit st Hv) as Hc.
  destruct (iter p octokit st) as [st1|st1|e]; [| |done].
  - destruct Hc as (d & h & _ & Hreq & -> & Hne & _ & Hnext).
    intros Hloop k Hjk Hk.
    destruct (decide (k = j)) as [->|Hneq].
    + exists d, h. by rewrite <- Hj, <- Hcur.
    + apply (IH (advance (push d st)) (S j)); [| |done|lia|done].
      * cbn [advance push fetchedPages]. lia.
      * cbn [advance push current]. by rewrite Hcur.
  - intros [= <-] k Hjk Hk.
    destruct Hc as [[_ ->] | (d & h & _ & _ & -> & _)];
      cbn [push fetchedPages] in Hk; lia.
Qed.

(** X9: every answer before the last one of a run held items and carried
    a [next] link; the loop does not go past an answer that is empty or
    has no such link. *)
Theorem earlier_pages_go_on fuel octokit args c n (k : nat) :
  handler fuel octokit args = Returned c →
  pages_of c = Some n →
  Z.of_nat k < n - 1 →
  goes_on (destructure args) octokit k.
Proof.
  intros (Hok & st & Hloop & ->)%handler_done [= <-] Hk.
  apply ok_valid in Hok as Hv.
  apply (loop_goes_on (destructure args) octokit fuel
           (init (destructure args)) st 0 Hv); [done | done | done | lia|].
  done.
Qed.

Lemma earlier_pages_go_on_witness :
  goes_on (destructure from_page_2_53) changing_its_mind 0.
Proof.
  eapply (earlier_pages_go_on 5 changing_its_mind from_page_2_53 _ 2 0);
    [vm_compute; reflexivity | reflexivity | lia].
Defined.

(** X19: a rejection is either the validation error of a call the schema
    excludes, or the error of the first call the source failed to answer,
    every call before it having been answered. *)
Theorem rejection_provenance fuel octokit args e :
  handler fuel octokit args = Rejected e →
  (inputSchema_ok args = false ∧ e = ZodError)
  ∨ (inputSchema_ok args = true
     ∧ ∃ ds, serves (destructure args) octokit ds
             ∧ octokit (len ds)
                 (request (destructure args)
                    (nth_page (destructure args) (length ds)))
               = inl e).
Proof.
  unfold handler, inputSchema_parse.
  destruct (inputSchema_ok args) eqn:Hok; [|intros [= <-]; by left].
  intros Hrun. right. split; [done|].
  apply ok_valid in Hok as Hv.
  pose proof (loop_folds (destructure args) octokit fuel []
                (init (destructure args)) Hv) as Hl.
  destruct (loop fuel _ octokit _) as [st|e'|]; try done.
  injection Hrun as ->. apply Hl.
  - by intros k d Hk.
  - apply folds_init.
  - done.
Qed.

Lemma rejection_provenance_witness :
  ∃ ds, serves (destructure just_q) failing_after_first ds
        ∧ failing_after_first (len ds)
            (request (destructure just_q)
               (nth_page (destructure just_q) (length ds)))
          = inl (RequestError 403).
Proof.
  destruct (rejection_provenance 5 failing_after_first just_q
              (RequestError 403)) as [[Hbad _] | [_ Hpage]].
  - vm_compute. reflexivity.
  - discriminate Hbad.
  - exact Hpage.
Defined.

(** X21: the page number a run asks for advances by one with every call
    as long as it stays within 2^53.  From a [page] of 2^53 or more that
    is a multiple of 4, and from any [page] of 2^54 or more, no increment
    changes the number and every call asks for the same page. *)
Theorem page_numbers p (k : nat) :
  (page p + Z.of_nat k ≤ 2 ^ 53 → nth_page p k = page p + Z.of_nat k)
  ∧ (2 ^ 53 ≤ page p → page p mod 4 = 0 → nth_page p k = page p)
  ∧ (2 ^ 54 ≤ page p → nth_page p k = page p).
Proof.
  split_and!; [apply nth_page_exact | |].
  - intros Hbig Hmod. induction k as [|k IH]; [done|].
    rewrite nth_page_S, IH. unfold js_succ.
    destruct (Z.ltb_spec (page p) (2 ^ 53)); [lia|].
    destruct (Z.ltb_spec (page p) (2 ^ 54)); [|done].
    by destruct (Z.eqb_spec (page p mod 4) 2); [lia|].
  - intros Hbig. induction k as [|k IH]; [done|].
    rewrite nth_page_S, IH. unfold js_succ.
    destruct (Z.ltb_spec (page p) (2 ^ 53)); [lia|].
    by destruct (Z.ltb_spec (page p) (2 ^ 54)); [lia|].
Qed.

Lemma page_numbers_witness :
  nth_page (destructure just_q) 3 = 1 + 3
  ∧ nth_page (destructure from_page_2_53) 3 = 2 ^ 53.
Proof.
  split.
  - apply (proj1 (page_numbers (destructure just_q) 3)). vm_compute.
    discriminate.
  - apply (proj1 (proj2 (page_numbers (destructure from_page_2_53) 3)));
      [vm_compute; discriminate | reflexivity].
Defined.

End HandlerFacts.

(** ** The [Link] header test *)

Module LinkHeaderFacts.
Import LinkHeader Behaviour.

Lemma append_nil (b : string) : "" +:+ b = b.
Proof. reflexivity. Qed.

Lemma append_cons x (a b : string) : String x a +:+ b = String x (a +:+ b).
Proof. reflexivity. Qed.

Lemma append_assoc (a b c : string) : (a +:+ b) +:+ c = a +:+ b +:+ c.
Proof.
  induction a as [|x a IH]; [done|]. rewrite !append_cons. by f_equal.
Qed.

Lemma span_not_gt_spec s u rest :
  span_not_gt s = (u, rest) →
  s = u +:+ rest ∧ all_chars not_gt u = true
  ∧ (rest = "" ∨ ∃ r, rest = String ">"%char r).
Proof.
  revert u rest. induction s as [|c s IH]; intros u rest; simpl.
  - intros [= <- <-]. auto.
  - destruct (Ascii.eqb_spec c ">"%char) as [->|Hc].
    + intros [= <- <-]. split_and!; [done | done | right; by eexists].
    + destruct (span_not_gt s) as [u' rest'] eqn:Hs.
      intros [= <- <-]. destruct (IH _ _ eq_refl) as (-> & Hu & Hrest).
      split_and!; [done | | done]. simpl. rewrite Hu.
      unfold not_gt. by destruct (Ascii.eqb_spec c ">"%char).
Qed.

Lemma span_not_gt_app u rest :
  all_chars not_gt u = true →
  span_not_gt (u +:+ String ">"%char rest) = (u, String ">"%char rest).
Proof.
  induction u as [|c u IH]; [done|].
  rewrite append_cons. simpl.
  intros [Hc Hu]%andb_prop. unfold not_gt in Hc.
  destruct (Ascii.eqb c ">"%char); [done|]. by rewrite IH.
Qed.

Lemma skip_spaces_spec s :
  ∃ ws, s = ws +:+ skip_spaces s ∧ all_chars is_space ws = true.
Proof.
  induction s as [|c s (ws & Hs & Hws)]; simpl.
  - by exists "".
  - destruct (is_space c) eqn:Hc.
    + exists (String c ws). rewrite append_cons. simpl.
      rewrite Hc, Hws. split; [|done]. by rewrite <- Hs.
    + by exists "".
Qed.

Lemma skip_spaces_app ws r :
  all_chars is_space ws = true → skip_spaces (ws +:+ r) = skip_spaces r.
Proof.
  induction ws as [|c ws IH]; [done|]. rewrite append_cons. simpl.
  intros [-> Hws]%andb_prop. by apply IH.
Qed.

Lemma prefix_cons x a y s :
  String.prefix (String x a) (String y s)
  = if ascii_dec x y then String.prefix a s else false.
Proof. reflexivity. Qed.

Lemma prefix_spec a s :
  String.prefix a s = true ↔ ∃ post, s = a +:+ post.
Proof.
  revert s. induction a as [|x a IH]; intros s.
  - split; [by exists s | by destruct s].
  - destruct s as [|y s]; [split; [done | by intros [? ?]]|].
    rewrite prefix_cons.
    destruct (ascii_dec x y) as [->|Hne].
    + rewrite IH. split; intros [post Hpost]; exists post.
      * rewrite append_cons. congruence.
      * rewrite append_cons in Hpost. congruence.
    + split; [done | intros [post Hpost]].
      rewrite append_cons in Hpost. congruence.
Qed.

Lemma match_here_cons c r :
  match_here (String c r)
  = if Ascii.eqb c "<"%char then
      match span_not_gt r with
      | (EmptyString, _) => None
      | (u, String c1 (String c2 r2)) =>
          if Ascii.eqb c1 ">"%char && Ascii.eqb c2 ";"%char
          then if String.prefix rel_next (skip_spaces r2) then Some u
               else None
          else None
      | _ => None
      end
    else None.
Proof.
  destruct (Ascii.eqb_spec c "<"%char) as [->|Hc].
  - simpl. destruct (span_not_gt r) as [[|x u] [|c1 [|c2 r2]]]; try done.
    + by destruct c1 as [[] [] [] [] [] [] [] []].
    + destruct (Ascii.eqb_spec c1 ">"%char) as [->|H1];
      destruct (Ascii.eqb_spec c2 ";"%char) as [->|H2]; simpl; try done.
      * destruct c2 as [[] [] [] [] [] [] [] []]; done.
      * destruct c1 as [[] [] [] [] [] [] [] []]; try done.
      * destruct c1 as [[] [] [] [] [] [] [] []]; try done.
  - destruct c as [[] [] [] [] [] [] [] []]; done.
Qed.

Lemma next_entry_canonical u ws post :
  next_entry u ws +:+ post
  = String "<"%char
      (u +:+ String ">"%char (String ";"%char (ws +:+ rel_next +:+ post))).
Proof. unfold next_entry. by rewrite !append_assoc. Qed.

Lemma match_here_spec s u :
  match_here s = Some u
  ↔ ∃ ws post, s = next_entry u ws +:+ post ∧ well_formed u ws.
Proof.
  split.
  - destruct s as [|c r]; [done|]. rewrite match_here_cons.
    destruct (Ascii.eqb_spec c "<"%char) as [->|]; [|done].
    destruct (span_not_gt r) as [u' rest] eqn:Hspan.
    apply span_not_gt_spec in Hspan as (-> & Hu & _).
    destruct u' as [|x u']; [done|].
    destruct rest as [|c1 [|c2 r2]]; try done.
    destruct (Ascii.eqb_spec c1 ">"%char) as [->|]; [|done].
    destruct (Ascii.eqb_spec c2 ";"%char) as [->|]; [|done].
    cbn [andb].
    destruct (String.prefix rel_next (skip_spaces r2)) eqn:Hpre; [|done].
    intros [= <-].
    apply prefix_spec in Hpre as [post Hpost].
    destruct (skip_spaces_spec r2) as (ws & Hr2 & Hws).
    exists ws, post. split; [|done].
    rewrite next_entry_canonical, <- Hpost, <- Hr2. done.
  - intros (ws & post & -> & Hne & Hu & Hws).
    rewrite next_entry_canonical, match_here_cons.
    rewrite span_not_gt_app by done.
    destruct u as [|x u]; [done|].
    cbn [Ascii.eqb Bool.eqb andb].
    rewrite skip_spaces_app by done.
    assert (skip_spaces (rel_next +:+ post) = rel_next +:+ post) as ->
      by reflexivity.
    assert (String.prefix rel_next (rel_next +:+ post) = true) as ->;
      [|done].
    apply prefix_spec. by exists post.
Qed.

Lemma regex_match_unfold s :
  regex_match s
  = match match_here s with
    | Some u => Some u
    | None =>
        match s with
        | String _ r => regex_match r
        | EmptyString => None
        end
    end.
Proof. by destruct s. Qed.

Lemma regex_match_sound s u :
  regex_match s = Some u →
  ∃ pre ws post, s = pre +:+ next_entry u ws +:+ post ∧ well_formed u ws.
Proof.
  induction s as [|c s IH]; rewrite regex_match_unfold.
  - done.
  - destruct (match_here (String c s)) as [u'|] eqn:Hhere.
    + intros [= ->]. apply match_here_spec in Hhere as (ws & post & ? & ?).
      by exists "", ws, post.
    + intros (pre & ws & post & -> & Hwf)%IH.
      by exists (String c pre), ws, post.
Qed.

Lemma regex_match_complete pre u ws post :
  well_formed u ws →
  is_Some (regex_match (pre +:+ next_entry u ws +:+ post)).
Proof.
  intros Hwf. induction pre as [|c pre IH]; rewrite regex_match_unfold.
  - rewrite append_nil.
    assert (match_here (next_entry u ws +:+ post) = Some u) as ->; [|done].
    apply match_here_spec. by exists ws, post.
  - rewrite append_cons.
    destruct (match_here _); [done | exact IH].
Qed.

(** X10: when the handler finds a next page in the [Link] header, the
    header does hold an entry [<u>; rel="next"], with a non-empty target
    [u] free of [>], only blanks between the semicolon and [rel], and the
    relation spelled exactly [rel="next"] in double quotes. *)
Theorem next_link_sound h u :
  next_link h = Some u →
  ∃ l pre ws post,
    link h = Some l
    ∧ l = pre +:+ next_entry u ws +:+ post
    ∧ well_formed u ws.
Proof.
  unfold next_link. destruct (link h) as [l|]; [|done].
  intros (pre & ws & post & -> & Hwf)%regex_match_sound.
  by exists (pre +:+ next_entry u ws +:+ post), pre, ws, post.
Qed.

Lemma next_link_sound_witness :
  ∃ l pre ws post,
    Some Fixtures.link_with_next = Some l
    ∧ l = pre +:+ next_entry "https://api.github.com/search/code?page=next"
                    ws +:+ post
    ∧ well_formed "https://api.github.com/search/code?page=next" ws.
Proof.
  apply (next_link_sound {| link := Some Fixtures.link_with_next |}).
  vm_compute. reflexivity.
Defined.

(** X11: a [Link] header that holds such an entry anywhere, whatever
    precedes and follows it, is found to name a next page; a response
    without [Link] header never is. *)
Theorem next_link_complete h pre u ws post :
  link h = Some (pre +:+ next_entry u ws +:+ post) →
  well_formed u ws →
  is_Some (next_link h)
  ∧ next_link {| link := None |} = None.
Proof.
  intros Hlink Hwf. split; [|done]. unfold next_link. rewrite Hlink.
  by apply regex_match_complete.
Qed.

Lemma next_link_complete_witness :
  is_Some (next_link
             {| link := Some ("<https://x/prev>; rel=prev, "
                              +:+ next_entry "https://x/next" "  "
                              +:+ ", <https://x/last>") |})
  ∧ next_link {| link := None |} = None.
Proof.
  apply (next_link_complete _ "<https://x/prev>; rel=prev, "
           "https://x/next" "  " ", <https://x/last>");
    [reflexivity | by split_and!].
Defined.

End LinkHeaderFacts.

(** ** Further properties of the session registry *)

Module RegistryFacts.
Import Sessions Fixtures Spec Behaviour.

Lemma run_callback_frame {T} t (σ : Server T) c :
  allocated (run_callback t σ c) = allocated σ
  ∧ connects (run_callback t σ c) = connects σ
  ∧ objects (run_callback t σ c) = objects σ.
Proof. by destruct c. Qed.

Lemma run_callbacks_frame {T} t (σ : Server T) cbs :
  allocated (foldl (run_callback t) σ cbs) = allocated σ
  ∧ connects (foldl (run_callback t) σ cbs) = connects σ
  ∧ objects (foldl (run_callback t) σ cbs) = objects σ.
Proof.
  revert σ. induction cbs as [|c cbs IH]; intros σ; [done|]. simpl.
  destruct (IH (run_callback t σ c)) as (-> & -> & ->).
  apply run_callback_frame.
Qed.

Lemma run_callbacks_other {T} t (σ : Server T) cbs sid :
  (∀ c, c ∈ cbs → callback_sid c ≠ sid) →
  transports (foldl (run_callback t) σ cbs) !! sid = transports σ !! sid.
Proof.
  revert σ. induction cbs as [|c cbs IH]; intros σ Hcbs; [done|]. simpl.
  rewrite IH by (intros c' Hc'; apply Hcbs; by right).
  assert (callback_sid c ≠ sid) as Hne by (apply Hcbs; by left).
  destruct c; simpl in *.
  - by rewrite lookup_insert_ne.
  - by rewrite lookup_delete_ne.
Qed.

Lemma run_callbacks_sound {T} t (σ : Server T) cbs :
  (t < allocated σ)%nat → sound_refs σ →
  sound_refs (foldl (run_callback t) σ cbs).
Proof.
  revert σ. induction cbs as [|c cbs IH]; intros σ Ht Hs; [done|]. simpl.
  apply IH; [by destruct c|].
  destruct Hs as [Hmap Hcon]. destruct c as [sid|sid]; split; simpl; try done.
  - intros sid' t'. destruct (decide (sid = sid')) as [->|Hne].
    + rewrite lookup_insert_eq. by intros [= <-].
    + rewrite lookup_insert_ne by done. apply Hmap.
  - intros sid' t'. destruct (decide (sid = sid')) as [->|Hne].
    + by rewrite lookup_delete_eq.
    + rewrite lookup_delete_ne by done. apply Hmap.
Qed.

Lemma handleRequest_frame {T} (sdk : Sdk T) uuid t req (σ : Server T) :
  allocated (handleRequest sdk uuid t req σ).1 = allocated σ
  ∧ connects (handleRequest sdk uuid t req σ).1 = connects σ
  ∧ ∀ t', t' ≠ t →
      objects (handleRequest sdk uuid t req σ).1 t' = objects σ t'.
Proof.
  unfold handleRequest.
  destruct (sdk_handleRequest sdk (objects σ t) uuid req) as [[ts cbs] res].
  cbn [fst]. destruct (run_callbacks_frame t
    {| transports := transports σ; objects := <[t:=ts]> (objects σ);
       allocated := allocated σ; connects := connects σ |} cbs)
    as (-> & -> & ->).
  split_and!; [done | done |]. intros t' Hne. cbn [objects].
  by rewrite fn_lookup_insert_ne.
Qed.

Lemma handleRequest_sound {T} (sdk : Sdk T) uuid t req (σ : Server T) :
  (t < allocated σ)%nat → sound_refs σ →
  sound_refs (handleRequest sdk uuid t req σ).1.
Proof.
  intros Ht Hs. unfold handleRequest.
  destruct (sdk_handleRequest sdk (objects σ t) uuid req) as [[ts cbs] res].
  cbn [fst]. by apply run_callbacks_sound.
Qed.

Lemma lookup_session_Some {T} (σ : Server T) sid t :
  lookup_session σ sid = Some (transport_object t) →
  ∃ s, sid = Some s ∧ s ≠ "" ∧ transports σ !! s = Some t.
Proof.
  destruct sid as [s|]; [|done]. simpl. unfold truthy.
  destruct (String.eqb_spec s ""); [done|].
  destruct (transports σ !! s) as [t'|] eqn:Ht.
  - intros [= ->]. by exists s.
  - by destruct (inherited s).
Qed.

Lemma lookup_session_truthy {T} (σ : Server T) s :
  s ≠ "" →
  lookup_session σ (Some s)
  = match transports σ !! s with
    | Some t => Some (transport_object t)
    | None => if inherited s then Some inherited_property else None
    end.
Proof.
  intros Hs. simpl. unfold truthy. by destruct (String.eqb_spec s "").
Qed.

Lemma call_sound {T} (sdk : Sdk T) uuid found req (σ : Server T) :
  (∀ t, found = transport_object t → (t < allocated σ)%nat) →
  sound_refs σ →
  sound_refs (call_handleRequest sdk uuid found req σ).1.
Proof.
  intros Ht Hs. destruct found as [t|]; [|done].
  apply handleRequest_sound; [|done]. by apply Ht.
Qed.

Lemma app_sound {T} (sdk : Sdk T) uuid req (σ : Server T) :
  sound_refs σ → sound_refs (app sdk uuid req σ).1.
Proof.
  intros Hs. unfold app.
  destruct (route (method req)) as [[|]|]; [| |done].
  - unfold handleEnsured, ensureTransport.
    destruct (lookup_session σ (mcp_session_id req)) as [found|] eqn:Hlook.
    + apply call_sound; [|done]. intros t ->.
      apply lookup_session_Some in Hlook as (s & _ & _ & Ht).
      by apply (proj1 Hs s).
    + apply handleRequest_sound; [simpl; lia|].
      destruct Hs as [Hmap Hcon]. split; cbn [transports connects allocated].
      * intros sid t Ht. apply Hmap in Ht. lia.
      * by rewrite seq_S, reverse_snoc, Hcon.
  - unfold handleSession.
    destruct (lookup_session σ (mcp_session_id req)) as [found|] eqn:Hlook;
      [|done].
    apply call_sound; [|done]. intros t ->.
    apply lookup_session_Some in Hlook as (s & _ & _ & Ht).
    by apply (proj1 Hs s).
Qed.

(** X12: whatever requests arrive and whatever the transports do with
    them, every entry of [transports] names a transport that was created,
    and the server has been connected to every transport created, once and
    in the order of creation. *)
Theorem refs_stay_sound {T} (sdk : Sdk T) reqs :
  sound_refs (serve sdk reqs (start sdk)).
Proof.
  assert (sound_refs (start sdk)) as Hstart by done.
  revert Hstart. generalize (start sdk).
  induction reqs as [|[uuid req] reqs IH]; intros σ Hs; [done|].
  apply IH. by apply app_sound.
Qed.

(** X13: a request that carries the id of a registered session is handed,
    on every route, to the transport registered under that id; no transport
    is created, the server is connected to none, and no other transport
    object changes. *)
Theorem known_session_reaches_its_transport {T} (sdk : Sdk T) uuid req
  (σ : Server T) sid t :
  mcp_session_id req = Some sid → sid ≠ "" →
  transports σ !! sid = Some t →
  app sdk uuid req σ = handleRequest sdk uuid t req σ
  ∧ allocated (app sdk uuid req σ).1 = allocated σ
  ∧ connects (app sdk uuid req σ).1 = connects σ
  ∧ ∀ t', t' ≠ t → objects (app sdk uuid req σ).1 t' = objects σ t'.
Proof.
  intros Hsid Hne Ht.
  assert (app sdk uuid req σ = handleRequest sdk uuid t req σ) as ->.
  { unfold app, handleEnsured, handleSession, ensureTransport.
    rewrite Hsid, lookup_session_truthy, Ht by done.
    by destruct (method req). }
  split; [done|]. apply handleRequest_frame.
Qed.

Lemma known_session_reaches_its_transport_witness :
  let σ := run_callback 0 (start toy_sdk) (onsessioninitialized "s1") in
  let req := {| method := DELETE; mcp_session_id := Some "s1";
                body := None |} in
  app toy_sdk "u" req σ = handleRequest toy_sdk "u" 0 req σ
  ∧ allocated (app toy_sdk "u" req σ).1 = allocated σ
  ∧ connects (app toy_sdk "u" req σ).1 = connects σ
  ∧ ∀ t', t' ≠ 0%nat → objects (app toy_sdk "u" req σ).1 t' = objects σ t'.
Proof.
  intros σ req.
  apply (known_session_reaches_its_transport toy_sdk "u" req σ "s1" 0);
    [reflexivity | discriminate | apply lookup_insert_eq].
Defined.

(** X14: a POST or a GET under whose session id nothing is found (the id
    is absent or empty, or it names neither an entry of the map nor a
    property every object inherits) creates a transport, connects the
    server to it and hands it the request, whatever the request is and
    whatever the transport answers; the map itself is not touched before
    the transport runs.  For a GET this holds although a later route would
    send it to [handleSession]. *)
Theorem unknown_session_creates_transport {T} (sdk : Sdk T) uuid req
  (σ : Server T) :
  lookup_session σ (mcp_session_id req) = None →
  method req ≠ DELETE →
  let fresh := allocated σ in
  let σ1 := (ensureTransport sdk (mcp_session_id req) σ).2 in
  app sdk uuid req σ = handleRequest sdk uuid fresh req σ1
  ∧ transports σ1 = transports σ
  ∧ objects σ1 fresh = sdk_new sdk
  ∧ allocated (app sdk uuid req σ).1 = S (allocated σ)
  ∧ connects (app sdk uuid req σ).1 = fresh :: connects σ.
Proof.
  intros Hlook Hm fresh σ1.
  assert (ensureTransport sdk (mcp_session_id req) σ
          = (transport_object fresh, σ1)) as Hens.
  { unfold σ1, fresh, ensureTransport. by rewrite Hlook. }
  assert (app sdk uuid req σ = handleRequest sdk uuid fresh req σ1) as ->.
  { unfold app, handleEnsured. rewrite Hens. by destruct (method req). }
  destruct (handleRequest_frame sdk uuid fresh req σ1) as (-> & -> & _).
  unfold σ1, fresh, ensureTransport. rewrite Hlook. cbn.
  by rewrite fn_lookup_insert.
Qed.

Lemma unknown_session_creates_transport_witness :
  let req := {| method := GET; mcp_session_id := Some "gone";
                body := None |} in
  allocated (app toy_sdk "u" req (start toy_sdk)).1 = 1%nat
  ∧ connects (app toy_sdk "u" req (start toy_sdk)).1 = [0%nat]
  ∧ status (app toy_sdk "u" req (start toy_sdk)).2 = 400.
Proof.
  intros req.
  destruct (unknown_session_creates_transport toy_sdk "u" req
              (start toy_sdk)) as (_ & _ & _ & Halloc & Hcon);
    [reflexivity | discriminate |].
  split; [exact Halloc|]. split; [exact Hcon | reflexivity].
Defined.

(** X15: when the transport created for a request without known session
    reports a new session under a non-empty id, every later request that
    carries this id is handed to that same transport, which is in the
    state the first request left it in. *)
Theorem new_session_resolves {T} (sdk : Sdk T) uuid req (σ : Server T)
  ts sid res :
  lookup_session σ (mcp_session_id req) = None →
  method req ≠ DELETE →
  sdk_handleRequest sdk (sdk_new sdk) uuid req
  = (ts, [onsessioninitialized sid], res) →
  sid ≠ "" →
  let σ' := (app sdk uuid req σ).1 in
  (app sdk uuid req σ).2 = res
  ∧ lookup_session σ' (Some sid) = Some (transport_object (allocated σ))
  ∧ objects σ' (allocated σ) = ts
  ∧ ∀ uuid' req',
      mcp_session_id req' = Some sid →
      app sdk uuid' req' σ' = handleRequest sdk uuid' (allocated σ) req' σ'.
Proof.
  intros Hlook Hm Hcall Hsid σ'.
  assert (app sdk uuid req σ
          = ({| transports := <[sid := allocated σ]> (transports σ);
                objects := <[allocated σ := ts]>
                             (<[allocated σ := sdk_new sdk]> (objects σ));
                allocated := S (allocated σ);
                connects := allocated σ :: connects σ |}, res)) as Happ.
  { unfold app, handleEnsured, ensureTransport.
    rewrite Hlook. unfold call_handleRequest, handleRequest.
    cbn [objects]. rewrite fn_lookup_insert, Hcall.
    by destruct (method req). }
  unfold σ'. rewrite Happ. cbn [fst snd].
  assert (∀ o : option string, o = Some sid →
            lookup_session
              {| transports := <[sid := allocated σ]> (transports σ);
                 objects := <[allocated σ := ts]>
                              (<[allocated σ := sdk_new sdk]> (objects σ));
                 allocated := S (allocated σ);
                 connects := allocated σ :: connects σ |} o
            = Some (transport_object (allocated σ))) as Hfound.
  { intros o ->. rewrite lookup_session_truthy by done.
    cbn [transports]. by rewrite lookup_insert_eq. }
  split_and!.
  - done.
  - by apply Hfound.
  - cbn [objects]. by rewrite fn_lookup_insert.
  - intros uuid' req' Hreq'.
    unfold app, handleEnsured, handleSession, ensureTransport.
    rewrite (Hfound _ Hreq'). by destruct (method req').
Qed.

Lemma new_session_resolves_witness :
  let hello := {| method := POST; mcp_session_id := None;
                  body := Some "initialize" |} in
  let σ' := (app toy_sdk "s1" hello (start toy_sdk)).1 in
  status (app toy_sdk "s1" hello (start toy_sdk)).2 = 200
  ∧ lookup_session σ' (Some "s1") = Some (transport_object 0)
  ∧ objects σ' 0%nat = Some "s1"
  ∧ ∀ uuid' req',
      mcp_session_id req' = Some "s1" →
      app toy_sdk uuid' req' σ' = handleRequest toy_sdk uuid' 0 req' σ'.
Proof.
  intros hello σ'.
  destruct (new_session_resolves toy_sdk "s1" hello (start toy_sdk)
              (Some "s1") "s1" {| status := 200; sent := "initialized" |})
    as (Hres & Hlook & Hobj & Hlater);
    [reflexivity | discriminate | reflexivity | discriminate |].
  split_and!; [by rewrite Hres | exact Hlook | exact Hobj | exact Hlater].
Defined.

(** X16: when the transport of a session reports its closing, the entry
    is gone: a later DELETE with that id leaves the state alone and is
    answered [400 Invalid session] (500 if the id is the name of an
    inherited property, which no value of [randomUUID()] is), while every
    other session id resolves as before. *)
Theorem closed_session_is_gone {T} (sdk : Sdk T) uuid req (σ : Server T)
  sid t ts res :
  mcp_session_id req = Some sid → sid ≠ "" →
  transports σ !! sid = Some t →
  sdk_handleRequest sdk (objects σ t) uuid req
  = (ts, [onsessionclosed sid], res) →
  let σ' := (app sdk uuid req σ).1 in
  transports σ' !! sid = None
  ∧ (inherited sid = false → lookup_session σ' (Some sid) = None)
  ∧ (∀ uuid' req',
       mcp_session_id req' = Some sid → method req' = DELETE →
       app sdk uuid' req' σ'
       = (σ', if inherited sid then internal_error else invalid_session))
  ∧ ∀ sid', sid' ≠ sid →
      lookup_session σ' (Some sid') = lookup_session σ (Some sid').
Proof.
  intros Hreq Hsid Ht Hcall σ'.
  assert (transports σ' = delete sid (transports σ)) as Hmap.
  { unfold σ', app, handleEnsured, handleSession, ensureTransport.
    rewrite Hreq, lookup_session_truthy, Ht by done.
    unfold call_handleRequest, handleRequest. rewrite Hcall.
    by destruct (method req). }
  assert (transports σ' !! sid = None) as Hgone
    by (rewrite Hmap; apply lookup_delete_eq).
  split_and!.
  - done.
  - intros Hi. by rewrite lookup_session_truthy, Hgone, Hi.
  - intros uuid' req' Hreq' Hdel. unfold app, handleSession.
    rewrite Hdel, Hreq', lookup_session_truthy, Hgone by done.
    cbn [route routes method_eqb List.find fmap option_fmap option_map snd
         fst].
    by destruct (inherited sid).
  - intros sid' Hne. simpl. rewrite Hmap.
    by rewrite lookup_delete_ne.
Qed.

Lemma closed_session_is_gone_witness :
  let σ := {| transports := {[ "s1" := 0%nat ]};
              objects := λ _, Some "s1";
              allocated := 1%nat; connects := [0%nat] |} in
  let bye := {| method := DELETE; mcp_session_id := Some "s1";
                body := None |} in
  let σ' := (app toy_sdk "u" bye σ).1 in
  lookup_session σ' (Some "s1") = None
  ∧ app toy_sdk "u" bye σ' = (σ', invalid_session).
Proof.
  intros σ bye σ'.
  destruct (closed_session_is_gone toy_sdk "u" bye σ "s1" 0 (Some "s1")
              {| status := 200; sent := "" |})
    as (_ & Hgone & Hagain & _);
    [reflexivity | discriminate | apply lookup_singleton_eq | reflexivity |].
  split; [by apply Hgone | by apply Hagain].
Defined.

(** X17: an empty [mcp-session-id] counts as none, even when the map holds
    an entry under the empty id: [handleSession] answers
    [400 Invalid session] and the other routes create a transport. *)
Theorem empty_session_id_is_no_session {T} (sdk : Sdk T) uuid req
  (σ : Server T) :
  mcp_session_id req = Some "" →
  lookup_session σ (mcp_session_id req) = None
  ∧ (method req = DELETE → app sdk uuid req σ = (σ, invalid_session))
  ∧ (method req ≠ DELETE →
     allocated (app sdk uuid req σ).1 = S (allocated σ)).
Proof.
  intros Hreq.
  assert (lookup_session σ (mcp_session_id req) = None) as Hlook
    by by rewrite Hreq.
  split_and!; [done | |].
  - intros Hm. unfold app, handleSession. by rewrite Hm, Hlook.
  - intros Hm. unfold app, handleEnsured, ensureTransport. rewrite Hlook.
    destruct (handleRequest_frame sdk uuid (allocated σ) req
      {| transports := transports σ;
         objects := <[allocated σ := sdk_new sdk]> (objects σ);
         allocated := S (allocated σ);
         connects := allocated σ :: connects σ |}) as (Halloc & _ & _).
    by destruct (method req).
Qed.

Lemma empty_session_id_is_no_session_witness :
  let σ := {| transports := {[ "" := 0%nat ]};
              objects := λ _, Some "";
              allocated := 1%nat; connects := [0%nat] |} in
  let req := {| method := DELETE; mcp_session_id := Some "";
                body := None |} in
  transports σ !! "" = Some 0%nat
  ∧ app toy_sdk "u" req σ = (σ, invalid_session).
Proof.
  intros σ req. split; [apply lookup_singleton_eq|].
  by apply (empty_session_id_is_no_session toy_sdk "u" req σ).
Defined.

(** X18: handling a request changes the entry of a session id only if the
    transport invokes a callback for that very id. *)
Theorem other_sessions_untouched {T} (sdk : Sdk T) uuid t req
  (σ : Server T) ts cbs res sid :
  sdk_handleRequest sdk (objects σ t) uuid req = (ts, cbs, res) →
  (∀ c, c ∈ cbs → callback_sid c ≠ sid) →
  transports (handleRequest sdk uuid t req σ).1 !! sid
  = transports σ !! sid.
Proof.
  intros Hcall Hcbs. unfold handleRequest. rewrite Hcall. cbn [fst].
  by rewrite run_callbacks_other.
Qed.

Lemma other_sessions_untouched_witness :
  let σ := {| transports := {[ "s1" := 0%nat ]};
              objects := λ _, Some "s1";
              allocated := 1%nat; connects := [0%nat] |} in
  let bye := {| method := DELETE; mcp_session_id := Some "s1";
                body := None |} in
  transports (handleRequest toy_sdk "u" 0 bye σ).1 !! "s2"
  = transports σ !! "s2".
Proof.
  intros σ bye.
  apply (other_sessions_untouched toy_sdk "u" 0 bye σ (Some "s1")
           [onsessionclosed "s1"] {| status := 200; sent := "" |} "s2");
    [reflexivity|].
  intros c [->|[]%elem_of_nil]%elem_of_cons. discriminate.
Defined.

(** X20: a request under whose session id no transport is registered
    never changes anything on the [handleSession] route: it is answered
    [400 Invalid session] when nothing is found under the id, and 500 when
    the id is the name of a property every object inherits, under which
    the guard of line 157 finds a value that is no transport.  On the
    other routes such a name creates no transport either and is answered
    500 as well. *)
Theorem no_transport_under_id {T} (sdk : Sdk T) uuid req (σ : Server T) :
  (∀ t, lookup_session σ (mcp_session_id req)
        ≠ Some (transport_object t)) →
  (method req = DELETE →
   app sdk uuid req σ
   = (σ, match lookup_session σ (mcp_session_id req) with
         | None => invalid_session
         | Some _ => internal_error
         end))
  ∧ (lookup_session σ (mcp_session_id req) = Some inherited_property →
     app sdk uuid req σ = (σ, internal_error)).
Proof.
  intros Hno. split.
  - intros Hm. unfold app, handleSession. rewrite Hm.
    destruct (lookup_session σ (mcp_session_id req)) as [[t|]|]; try done.
    by destruct (Hno t).
  - intros Hlook. unfold app, handleSession, handleEnsured, ensureTransport.
    rewrite Hlook. by destruct (method req).
Qed.

Lemma no_transport_under_id_witness :
  app toy_sdk "u"
    {| method := POST; mcp_session_id := Some "toString";
       body := Some "tools/call" |} (start toy_sdk)
  = (start toy_sdk, internal_error)
  ∧ app toy_sdk "u"
      {| method := DELETE; mcp_session_id := Some "gone"; body := None |}
      (start toy_sdk)
    = (start toy_sdk, invalid_session).
Proof.
  split.
  - apply (no_transport_under_id toy_sdk "u"
             {| method := POST; mcp_session_id := Some "toString";
                body := Some "tools/call" |} (start toy_sdk));
      [discriminate | reflexivity].
  - apply (no_transport_under_id toy_sdk "u"
             {| method := DELETE; mcp_session_id := Some "gone";
                body := None |} (start toy_sdk));
      [discriminate | reflexivity].
Defined.

End RegistryFacts.
